(** * CollabCode: the replicated document, its vector clocks and the
      delivery layer, as a shallow embedding of [app.js] (classes
      [VectorClock], [CRDTCharacter], [CRDT]) and of the sync engine
      (class [SyncEngine]).

    JavaScript objects used as maps from site id to counter are finite maps
    [gmap string Z]; arrays are lists; [null] results are [None]; methods
    that mutate [this] return the new object next to their result. *)

From Stdlib Require Import ZArith Lia DecimalString.
From Stdlib Require DecimalNat.
From stdpp Require Import gmap strings list fin_maps sorting.

Local Open Scope Z_scope.

(** ** Vector clocks *)

Abbreviation Clock := (gmap string Z).

(** [clock[site] || 0]: a missing key reads as 0. *)
Definition get (c : Clock) (site : string) : Z := default 0 (c !! site).

Record VectorClock := mkVectorClock {
  vc_siteId : string;
  vc_clock : Clock
}.

(** [constructor(siteId)] *)
Definition newVectorClock (siteId : string) : VectorClock :=
  {| vc_siteId := siteId; vc_clock := {[ siteId := 0 ]} |}.

(** [increment()]: the new clock and the returned component. *)
Definition increment (vc : VectorClock) : VectorClock * Z :=
  let v := get (vc_clock vc) (vc_siteId vc) + 1 in
  ({| vc_siteId := vc_siteId vc;
      vc_clock := <[ vc_siteId vc := v ]> (vc_clock vc) |}, v).

(** One round of the [for (const site in otherClock)] loop of [update]:
    [theirs] is [otherClock[site]], [clock] the map of [this] so far. *)
Definition update_step (site : string) (theirs : Z) (clock : Clock) : Clock :=
  <[ site := Z.max (get clock site) theirs ]> clock.

(** [update(otherClock)] *)
Definition update (vc : VectorClock) (otherClock : Clock) : VectorClock :=
  {| vc_siteId := vc_siteId vc;
     vc_clock := map_fold update_step (vc_clock vc) otherClock |}.

(** The body of the loop of [compareTo] on the two flags. *)
Definition compareTo_step (mine otherClock : Clock)
    (flags : bool * bool) (site : string) : bool * bool :=
  let m := get mine site in
  let t := get otherClock site in
  (if m <? t then true else fst flags,
   if m >? t then true else snd flags).

(** [compareTo(otherClock)] on the map of [this]: [Some (-1)] is Before,
    [Some 1] After, [Some 0] Equal and [None] the [null] of Concurrent. *)
Definition compareTo (mine otherClock : Clock) : option Z :=
  let allSites := elements (dom mine ∪ dom otherClock) in
  let '(isLess, isGreater) :=
    foldl (compareTo_step mine otherClock) (false, false) allSites in
  if isLess && negb isGreater then Some (-1)
  else if isGreater && negb isLess then Some 1
  else if negb isLess && negb isGreater then Some 0
  else None.

(** [getCopy()] *)
Definition getCopy (vc : VectorClock) : Clock := vc_clock vc.

(** Some component of [a] is strictly below the one of [b]. *)
Definition anyLess (a b : Clock) : bool :=
  existsb (λ s, get a s <? get b s) (elements (dom a ∪ dom b)).

(** ** Characters and operations *)

Record CRDTCharacter := mkCharacter {
  char_value : string;
  char_id : string;          (* `${siteId}-${counter}` *)
  char_siteId : string;
  char_vectorClock : Clock;  (* copy of the clock at creation *)
  char_visible : bool        (* false: tombstone *)
}.

(** [new CRDTCharacter(value, id, siteId, vectorClock)] *)
Definition newCRDTCharacter (value id siteId : string) (vectorClock : Clock)
    : CRDTCharacter :=
  mkCharacter value id siteId vectorClock true.

(** [char.visible = v] *)
Definition setVisible (v : bool) (c : CRDTCharacter) : CRDTCharacter :=
  mkCharacter (char_value c) (char_id c) (char_siteId c)
    (char_vectorClock c) v.

(** The [type] of an operation object with the field that goes with it:
    [char] for ['insert'], [charId] for ['delete']. *)
Inductive OpType :=
  | Insert (char : CRDTCharacter)
  | Delete (charId : string).

Record Operation := mkOperation {
  op_type : OpType;
  op_position : Z;
  op_timestamp : Z;
  op_vectorClock : Clock
}.

(** ** The replicated document (class [CRDT]) *)

Record CRDT := mkCRDT {
  siteId : string;
  vectorClock : VectorClock;
  characters : list CRDTCharacter;
  counter : nat;
  operationHistory : list Operation
}.

(** [new CRDT(siteId)] *)
Definition newCRDT (site : string) : CRDT :=
  mkCRDT site (newVectorClock site) [] 0 [].

(** Decimal rendering of a counter inside a template string. *)
Definition decimal (n : nat) : string :=
  NilZero.string_of_uint (Nat.to_uint n).

(** [generateId()]: the id and the replica with its counter advanced. *)
Definition generateId (crdt : CRDT) : string * CRDT :=
  (siteId crdt +:+ "-" +:+ decimal (counter crdt),
   mkCRDT (siteId crdt) (vectorClock crdt) (characters crdt)
     (S (counter crdt)) (operationHistory crdt)).

(** [getText()] *)
Definition getText (crdt : CRDT) : string :=
  String.concat "" (map char_value (List.filter char_visible (characters crdt))).

(** The loop of [getVisiblePosition]: [i] is the loop index,
    [visibleCount] the running count; falling off the end returns the
    length of the array, which is the value of [i] there. *)
Fixpoint getVisiblePosition_from (chars : list CRDTCharacter)
    (i : nat) (visibleCount index : Z) : nat :=
  match chars with
  | [] => i
  | c :: rest =>
      if char_visible c then
        if visibleCount =? index then i
        else getVisiblePosition_from rest (S i) (visibleCount + 1) index
      else getVisiblePosition_from rest (S i) visibleCount index
  end.

(** [getVisiblePosition(index)] *)
Definition getVisiblePosition (crdt : CRDT) (index : Z) : nat :=
  getVisiblePosition_from (characters crdt) 0 0 index.

(** [array.splice(start, 0, item)] *)
Definition splice {A} (start : nat) (item : A) (l : list A) : list A :=
  take start l ++ item :: drop start l.

(** [localInsert(position, value)] *)
Definition localInsert (crdt : CRDT) (position : Z) (value : string)
    : CRDT * Operation :=
  let '(vc, timestamp) := increment (vectorClock crdt) in
  let '(id, crdt1) := generateId crdt in
  let char := newCRDTCharacter value id (siteId crdt) (getCopy vc) in
  let actualPosition := getVisiblePosition crdt position in
  let operation :=
    mkOperation (Insert char) (Z.of_nat actualPosition) timestamp (getCopy vc) in
  (mkCRDT (siteId crdt) vc
     (splice actualPosition char (characters crdt))
     (counter crdt1)
     (operationHistory crdt ++ [operation]),
   operation).

(** [localDelete(position)]; [None] is the [null] result. The test
    [actualPosition < 0] of the source cannot succeed, an array index
    being a natural number. *)
Definition localDelete (crdt : CRDT) (position : Z) : CRDT * option Operation :=
  let '(vc, timestamp) := increment (vectorClock crdt) in
  let actualPosition := getVisiblePosition crdt position in
  let crdt1 :=
    mkCRDT (siteId crdt) vc (characters crdt) (counter crdt)
      (operationHistory crdt) in
  if (length (characters crdt) <=? actualPosition)%nat then (crdt1, None)
  else
    match characters crdt !! actualPosition with
    | Some char =>
        if char_visible char then
          let operation :=
            mkOperation (Delete (char_id char)) (Z.of_nat actualPosition)
              timestamp (getCopy vc) in
          (mkCRDT (siteId crdt) vc
             (<[actualPosition := setVisible false char]> (characters crdt))
             (counter crdt)
             (operationHistory crdt ++ [operation]),
           Some operation)
        else (crdt1, None)
    | None => (crdt1, None)
    end.

(** [s1.localeCompare(s2)], taken as the ordinal comparison of the two
    strings (the collation of site ids and character ids, which are made
    of lower-case letters, digits and hyphens). *)
Definition localeCompare (s1 s2 : string) : Z :=
  match String.compare s1 s2 with
  | Lt => -1
  | Eq => 0
  | Gt => 1
  end.

(** The loop of [compareCharacters] over the sorted site keys: the
    difference at the first key where the clocks differ. *)
Fixpoint compareClocks (sites : list string) (c1 c2 : Clock) : option Z :=
  match sites with
  | [] => None
  | site :: rest =>
      let v1 := get c1 site in
      let v2 := get c2 site in
      if decide (v1 ≠ v2) then Some (v1 - v2)
      else compareClocks rest c1 c2
  end.

(** [Array.from(allSites).sort()]: the default sort, by code units. *)
Definition sortedSites (c1 c2 : Clock) : list string :=
  merge_sort String.le (elements (dom c1 ∪ dom c2)).

(** [compareCharacters(char1, char2)] *)
Definition compareCharacters (char1 char2 : CRDTCharacter) : Z :=
  match compareClocks
          (sortedSites (char_vectorClock char1) (char_vectorClock char2))
          (char_vectorClock char1) (char_vectorClock char2) with
  | Some d => d
  | None =>
      if decide (char_siteId char1 ≠ char_siteId char2)
      then localeCompare (char_siteId char1) (char_siteId char2)
      else localeCompare (char_id char1) (char_id char2)
  end.

(** The scan of [remoteInsert]: [insertIndex] moves past every leading
    record that compares below [char], and the loop breaks at the first
    one that does not. *)
Fixpoint findInsertIndex (chars : list CRDTCharacter) (char : CRDTCharacter)
    (i insertIndex : nat) : nat :=
  match chars with
  | [] => insertIndex
  | c :: rest =>
      if compareCharacters c char <? 0
      then findInsertIndex rest char (S i) (S i)
      else insertIndex
  end.

(** [remoteInsert(operation)], on the fields it reads:
    [operation.vectorClock] and [operation.char]. *)
Definition remoteInsert (crdt : CRDT) (opClock : Clock) (char : CRDTCharacter)
    : CRDT :=
  let vc := update (vectorClock crdt) opClock in
  let insertIndex := findInsertIndex (characters crdt) char 0 0 in
  let exists_ :=
    existsb (λ c, bool_decide (char_id c = char_id char)) (characters crdt) in
  mkCRDT (siteId crdt) vc
    (if exists_ then characters crdt
     else splice insertIndex char (characters crdt))
    (counter crdt) (operationHistory crdt).

(** [characters.findIndex(c => c.id === charId)]; [None] is -1. *)
Fixpoint findIndex (chars : list CRDTCharacter) (charId : string) (i : nat)
    : option nat :=
  match chars with
  | [] => None
  | c :: rest =>
      if decide (char_id c = charId) then Some i
      else findIndex rest charId (S i)
  end.

(** [remoteDelete(operation)], on the fields it reads:
    [operation.vectorClock] and [operation.charId]. *)
Definition remoteDelete (crdt : CRDT) (opClock : Clock) (charId : string)
    : CRDT :=
  let vc := update (vectorClock crdt) opClock in
  mkCRDT (siteId crdt) vc
    (match findIndex (characters crdt) charId 0 with
     | Some charIndex => alter (setVisible false) charIndex (characters crdt)
     | None => characters crdt
     end)
    (counter crdt) (operationHistory crdt).

(** [array.slice(-n)]: the last [n] elements; [-0] is [0], so that
    [slice(-0)] is the whole array. *)
Definition sliceLast {A} (n : nat) (l : list A) : list A :=
  match n with
  | O => l
  | _ => drop (length l - n) l
  end.

(** [garbageCollect(keepRecent)] *)
Definition garbageCollect (crdt : CRDT) (keepRecent : nat) : CRDT :=
  let visibleChars := List.filter char_visible (characters crdt) in
  let recentTombstones :=
    sliceLast keepRecent
      (List.filter (λ c, negb (char_visible c)) (characters crdt)) in
  mkCRDT (siteId crdt) (vectorClock crdt)
    (visibleChars ++ recentTombstones)
    (counter crdt) (operationHistory crdt).

(** ** The sync engine (class [SyncEngine]) *)

(** A message object by its [type]: ['operation'] with its serialized
    operation, ['ack'] with its [ackId], or any other type string. An
    absent field reads [undefined], here [None]. *)
Inductive MessageType :=
  | operation (data : Operation)
  | ack (ackId : option string)
  | otherType (type : string).

Record Message := mkMessage {
  msg_type : MessageType;
  msg_siteId : string;
  msg_targetId : string;
  msg_timestamp : Z;
  msg_messageId : option string
}.

(** An entry of [pendingAcks]. *)
Record PendingAck := mkPendingAck {
  pa_message : Message;
  pa_retries : nat;
  pa_maxRetries : nat;
  pa_sentAt : Z
}.

(** What a handler does to the outside: the [onRemoteOperation]
    callback, a message handed to [broadcastMessage], a console warning. *)
Inductive Effect :=
  | RemoteOperation (op : Operation)
  | Broadcast (m : Message)
  | Warn (op : Operation).

(** The fields of the engine that message handling reads and writes.
    [receivedOperations] is a [Set], kept in insertion order;
    [onRemoteOperation] tells whether the callback is installed. *)
Record SyncEngine := mkSyncEngine {
  crdt : CRDT;
  onRemoteOperation : bool;
  receivedOperations : list (option string);
  pendingAcks : gmap string PendingAck
}.

(** [deserializeOperation(data)]: the operation is rebuilt field by field
    and its character, when there is one, is a new [CRDTCharacter] with
    the transmitted [visible] flag. *)
Definition deserializeOperation (data : Operation) : Operation :=
  mkOperation
    (match op_type data with
     | Insert char =>
         Insert (setVisible (char_visible char)
                   (newCRDTCharacter (char_value char) (char_id char)
                      (char_siteId char) (char_vectorClock char)))
     | Delete charId => Delete charId
     end)
    (op_position data) (op_timestamp data) (op_vectorClock data).

(** The message built by [sendAck(messageId, targetSiteId)]; [now] is
    [Date.now()]. The object has no [messageId] field. *)
Definition sendAck (now : Z) (se : SyncEngine)
    (messageId : option string) (targetSiteId : string) : Message :=
  mkMessage (ack messageId) (siteId (crdt se)) targetSiteId now None.

(** The clean-up of [receivedOperations] once it holds more than 1000
    ids: the 500 oldest are deleted one by one. *)
Definition pruneReceived (received : list (option string))
    : list (option string) :=
  if (1000 <? length received)%nat then
    let toDelete := take 500 received in
    List.filter (λ id, negb (bool_decide (id ∈ toDelete))) received
  else received.

(** The dispatch on [operation.type] inside [handleMessage]. *)
Definition applyRemote (c : CRDT) (op : Operation) : CRDT :=
  match op_type op with
  | Insert char => remoteInsert c (op_vectorClock op) char
  | Delete charId => remoteDelete c (op_vectorClock op) charId
  end.

(** [handleMessage(message)]: the engine afterwards and the effects in
    the order they happen. *)
Definition handleMessage (now : Z) (se : SyncEngine) (message : Message)
    : SyncEngine * list Effect :=
  if decide (msg_siteId message = siteId (crdt se)) then (se, [])
  else if bool_decide (msg_messageId message ∈ receivedOperations se)
  then (se, [])
  else
    let received :=
      pruneReceived (receivedOperations se ++ [msg_messageId message]) in
    match msg_type message with
    | operation data =>
        let op := deserializeOperation data in
        let comparison :=
          compareTo (vc_clock (vectorClock (crdt se))) (op_vectorClock op) in
        if bool_decide (comparison = None ∨ comparison = Some (-1)) then
          (mkSyncEngine (applyRemote (crdt se) op) (onRemoteOperation se)
             received (pendingAcks se),
           (if onRemoteOperation se then [RemoteOperation op] else [])
             ++ [Broadcast (sendAck now se (msg_messageId message)
                              (msg_siteId message))])
        else
          (mkSyncEngine (crdt se) (onRemoteOperation se) received
             (pendingAcks se),
           [Warn op])
    | ack ackId =>
        (mkSyncEngine (crdt se) (onRemoteOperation se) received
           (match ackId with
            | Some k => delete k (pendingAcks se)
            | None => pendingAcks se
            end),
         [])
    | otherType _ =>
        (mkSyncEngine (crdt se) (onRemoteOperation se) received
           (pendingAcks se), [])
    end.

(** The clock built for one logged operation in
    [transformCursorPosition]: a new [VectorClock] of this site with the
    operation's clock assigned over it. *)
Definition comparisonClock (site : string) (op : Operation) : Clock :=
  op_vectorClock op ∪ vc_clock (newVectorClock site).

(** The body of the loop of [transformCursorPosition]. *)
Definition transformStep (site : string) (remoteVectorClock : Clock)
    (transformed : Z) (op : Operation) : Z :=
  let relation := compareTo (comparisonClock site op) remoteVectorClock in
  if bool_decide (relation = Some 1) then
    match op_type op with
    | Insert _ =>
        if op_position op <=? transformed then transformed + 1
        else transformed
    | Delete _ =>
        if op_position op <? transformed then transformed - 1
        else transformed
    end
  else transformed.

(** [transformCursorPosition(position, remoteVectorClock)] *)
Definition transformCursorPosition (se : SyncEngine) (position : Z)
    (remoteVectorClock : Clock) : Z :=
  Z.max 0
    (foldl (transformStep (siteId (crdt se)) remoteVectorClock) position
       (operationHistory (crdt se))).

(** ** Vocabulary of the properties *)

(** Strictly below, in the order of [sort()] and of [localeCompare]. *)
Definition slt (s1 s2 : string) : Prop := String.compare s1 s2 = Lt.

(** Clocks that read the same at every site. *)
Definition ceq (a b : Clock) : Prop := ∀ k, get a k = get b k.

(** [k] is the first site, in ascending order, where the clocks differ. *)
Definition firstDiff (a b : Clock) (k : string) : Prop :=
  get a k ≠ get b k ∧ ∀ k', slt k' k → get a k' = get b k'.

(** The first clock is below the second at their first difference. *)
Definition clock_lt (a b : Clock) : Prop :=
  ∃ k, firstDiff a b k ∧ get a k < get b k.

(** [char1] sorts strictly before [char2]. *)
Definition char_lt (char1 char2 : CRDTCharacter) : Prop :=
  compareCharacters char1 char2 < 0.

(** The sequence is in the order of [compareCharacters]. *)
Definition sortedDocument (chars : list CRDTCharacter) : Prop :=
  StronglySorted char_lt chars.

(** Number of visible records. *)
Definition visibleLength (chars : list CRDTCharacter) : nat :=
  length (List.filter char_visible chars).

(** Visible index of the record at internal index [k]: the number of
    visible records before it. *)
Definition visibleIndex (k : nat) (chars : list CRDTCharacter) : nat :=
  visibleLength (take k chars).

(** Placement of [char] after the leading records that sort before it. *)
Fixpoint insertSorted (char : CRDTCharacter) (chars : list CRDTCharacter)
    : list CRDTCharacter :=
  match chars with
  | [] => [char]
  | c :: rest =>
      if compareCharacters c char <? 0 then c :: insertSorted char rest
      else char :: c :: rest
  end.

(** The record with id [charId] turned into a tombstone. *)
Definition tombstoneId (charId : string) (c : CRDTCharacter) : CRDTCharacter :=
  if decide (char_id c = charId) then setVisible false c else c.

(** The operations applied one after the other through [remoteInsert] and
    [remoteDelete]. *)
Definition replay (ops : list Operation) (r : CRDT) : CRDT :=
  foldl applyRemote r ops.

Definition insertedChar (op : Operation) : option CRDTCharacter :=
  match op_type op with
  | Insert char => Some char
  | Delete _ => None
  end.

Definition deletedId (op : Operation) : option string :=
  match op_type op with
  | Insert _ => None
  | Delete charId => Some charId
  end.

(** The records inserted by [ops], and the ids [ops] deletes. *)
Definition insertedChars (ops : list Operation) : list CRDTCharacter :=
  omap insertedChar ops.

Definition deletedIds (ops : list Operation) : list string :=
  omap deletedId ops.

(** The inserted records have pairwise different ids. *)
Definition uniqueIds (ops : list Operation) : Prop :=
  NoDup (map char_id (insertedChars ops)).

(** No delete comes before the insert of its target. *)
Fixpoint deletesFollowInserts (ops : list Operation) : Prop :=
  match ops with
  | [] => True
  | op :: rest =>
      match op_type op with
      | Insert _ => True
      | Delete charId => charId ∉ map char_id (insertedChars rest)
      end ∧ deletesFollowInserts rest
  end.

(** A record as it ends up once every delete of [ops] has been seen. *)
Definition settled (ops : list Operation) (c : CRDTCharacter) : CRDTCharacter :=
  if bool_decide (char_id c ∈ deletedIds ops) then setVisible false c else c.

#[global] Instance char_lt_dec (x y : CRDTCharacter) : Decision (char_lt x y).
Proof. unfold char_lt. apply _. Defined.

#[global] Instance sortedDocument_dec (chars : list CRDTCharacter) :
  Decision (sortedDocument chars).
Proof. unfold sortedDocument. apply _. Defined.

(** The logged operation is strictly after the reported clock. *)
Definition strictlyAfter (remoteVectorClock : Clock) (op : Operation) : bool :=
  bool_decide (compareTo (op_vectorClock op) remoteVectorClock = Some 1).

(** *** Sample records, operations and messages *)

(** Two records of site "b", as its first two local inserts make them. *)
Definition sampleX : CRDTCharacter :=
  mkCharacter "x" "b-0" "b" {[ "b" := 1 ]} true.

Definition sampleY : CRDTCharacter :=
  mkCharacter "y" "b-1" "b" {[ "b" := 2 ]} true.

(** The operations site "b" sends: its two inserts, then the delete of
    the first record. *)
Definition insertX : Operation := mkOperation (Insert sampleX) 0 1 {[ "b" := 1 ]}.
Definition insertY : Operation := mkOperation (Insert sampleY) 1 2 {[ "b" := 2 ]}.
Definition deleteX : Operation := mkOperation (Delete "b-0") 0 3 {[ "b" := 3 ]}.

(** The record a site creates with its counter at [n], all at one clock. *)
Definition sampleAt (n : nat) : CRDTCharacter :=
  newCRDTCharacter "x"
    (fst (generateId (mkCRDT "s" (newVectorClock "s") [] n [])))
    "s" {[ "s" := 1 ]}.

(** The engine of a new replica of site "a", and the messages that carry
    the two inserts of site "b". *)
Definition engine0 : SyncEngine := mkSyncEngine (newCRDT "a") true [] ∅.

Definition messageX : Message :=
  mkMessage (operation insertX) "b" "broadcast" 100 (Some "b-100-0.25").

Definition messageY : Message :=
  mkMessage (operation insertY) "b" "broadcast" 101 (Some "b-101-0.75").

(** The engine of site "a" once the second insert of site "b" has come in. *)
Definition engine1 : SyncEngine := fst (handleMessage 0 engine0 messageY).

(** ** Further methods of [CRDT] *)

(** The body of the loop of [transformPosition]. *)
Definition transformPosition_step (transformed : Z) (op : Operation) : Z :=
  match op_type op with
  | Insert _ =>
      if op_position op <=? transformed then transformed + 1 else transformed
  | Delete _ =>
      if op_position op <? transformed then transformed - 1 else transformed
  end.

(** [transformPosition(position, operations)] *)
Definition transformPosition (position : Z) (operations : list Operation) : Z :=
  Z.max 0 (foldl transformPosition_step position operations).

(** The object returned by [getState()]. *)
Record State := mkState {
  st_siteId : string;
  st_vectorClock : Clock;
  st_characterCount : nat;
  st_visibleCount : nat;
  st_tombstoneCount : nat;
  st_operations : nat
}.

(** [getState()] *)
Definition getState (crdt : CRDT) : State :=
  mkState (siteId crdt) (getCopy (vectorClock crdt))
    (length (characters crdt))
    (length (List.filter char_visible (characters crdt)))
    (length (List.filter (λ c, negb (char_visible c)) (characters crdt)))
    (length (operationHistory crdt)).

(** ** The editor (class [EditorController]) *)

(** A text of the editor is a JavaScript string, here the list of its
    code units. *)
Abbreviation Text := (list Ascii.ascii).

(** An entry of the array returned by [calculateDiff]. *)
Inductive Change :=
  | deleteChange (position count : nat)
  | insertChange (position : nat) (text : Text).

(** The first [while] loop of [calculateDiff]; [n] counts the characters
    of [oldText] from [prefixLen] on, so that [n = 0] is the failure of
    [prefixLen < oldText.length]. *)
Fixpoint commonPrefix (n : nat) (oldText newText : Text) (prefixLen : nat)
    : nat :=
  match n with
  | O => prefixLen
  | S n' =>
      if (prefixLen <? length newText)%nat
         && bool_decide (oldText !! prefixLen = newText !! prefixLen)
      then commonPrefix n' oldText newText (S prefixLen)
      else prefixLen
  end.

(** The second [while] loop; [n] counts the characters of [oldText]
    between the prefix and the suffix found so far, so that [n = 0] is the
    failure of [suffixLen < oldText.length - prefixLen]. *)
Fixpoint commonSuffix (n : nat) (oldText newText : Text)
    (prefixLen suffixLen : nat) : nat :=
  match n with
  | O => suffixLen
  | S n' =>
      if (suffixLen <? length newText - prefixLen)%nat
         && bool_decide (oldText !! (length oldText - 1 - suffixLen)%nat
                         = newText !! (length newText - 1 - suffixLen)%nat)
      then commonSuffix n' oldText newText prefixLen (S suffixLen)
      else suffixLen
  end.

(** [text.substring(start, end)]: the two indices are put in order and
    cut down to the length of the text. *)
Definition substring (start end_ : nat) (text : Text) : Text :=
  take (Nat.max start end_ - Nat.min start end_) (drop (Nat.min start end_) text).

(** [calculateDiff(oldText, newText)] *)
Definition calculateDiff (oldText newText : Text) : list Change :=
  let prefixLen := commonPrefix (length oldText) oldText newText 0 in
  let suffixLen :=
    commonSuffix (length oldText - prefixLen) oldText newText prefixLen 0 in
  let oldMid := substring prefixLen (length oldText - suffixLen) oldText in
  let newMid := substring prefixLen (length newText - suffixLen) newText in
  if (0 <? length oldMid)%nat && (0 <? length newMid)%nat then
    [deleteChange prefixLen (length oldMid); insertChange prefixLen newMid]
  else if (0 <? length oldMid)%nat then
    [deleteChange prefixLen (length oldMid)]
  else if (0 <? length newMid)%nat then
    [insertChange prefixLen newMid]
  else [].

(** The [for] loop of [handleInput] over an insert change: [i] is the
    loop index and [text] what is left of [change.text] from [i] on. The
    operations are those handed to [sendOperation], in order. *)
Fixpoint insertChars (crdt : CRDT) (position i : nat) (text : Text)
    : CRDT * list Operation :=
  match text with
  | [] => (crdt, [])
  | char :: rest =>
      let '(crdt1, op) :=
        localInsert crdt (Z.of_nat (position + i)) (String char EmptyString) in
      let '(crdt2, ops) := insertChars crdt1 position (S i) rest in
      (crdt2, op :: ops)
  end.

(** The [for] loop over a delete change, from [count - 1] down to 0:
    [n] is [i + 1]. A [null] result sends nothing. *)
Fixpoint deleteChars (crdt : CRDT) (position n : nat) : CRDT * list Operation :=
  match n with
  | O => (crdt, [])
  | S i =>
      let '(crdt1, op) := localDelete crdt (Z.of_nat (position + i)) in
      let '(crdt2, ops) := deleteChars crdt1 position i in
      (crdt2, option_list op ++ ops)
  end.

(** The body of [changes.forEach] in [handleInput]. *)
Definition applyChange (acc : CRDT * list Operation) (change : Change)
    : CRDT * list Operation :=
  let '(crdt1, ops) :=
    match change with
    | insertChange position text => insertChars (fst acc) position 0 text
    | deleteChange position count => deleteChars (fst acc) position count
    end in
  (crdt1, snd acc ++ ops).

(** [handleInput(e)] on the replica: [currentText] is [textarea.value];
    the result is the replica afterwards with the operations sent, of
    which [localEdits] counts the number. *)
Definition handleInput (crdt : CRDT) (currentText : Text)
    : CRDT * list Operation :=
  let previousText := String.list_ascii_of_string (getText crdt) in
  if decide (currentText = previousText) then (crdt, [])
  else foldl applyChange (crdt, []) (calculateDiff previousText currentText).

(** The loop of [EditorController.getVisiblePosition]: [i] is the loop
    index, which stops past [crdtPosition] or at the end of the array. *)
Fixpoint countVisible (chars : list CRDTCharacter) (i : nat)
    (crdtPosition visibleCount : Z) : Z :=
  match chars with
  | [] => visibleCount
  | c :: rest =>
      if Z.of_nat i <=? crdtPosition then
        countVisible rest (S i) crdtPosition
          (if char_visible c then visibleCount + 1 else visibleCount)
      else visibleCount
  end.

(** [EditorController.getVisiblePosition(crdtPosition)] *)
Definition editorVisiblePosition (crdt : CRDT) (crdtPosition : Z) : Z :=
  countVisible (characters crdt) 0 crdtPosition 0 - 1.

(** ** Presence (the [simulatedPeers] map of [SyncEngine]) *)

(** A value of [simulatedPeers]. *)
Record Peer := mkPeer {
  peer_siteId : string;
  peer_sessionId : string;
  peer_lastSeen : Z
}.

(** The [Map] from peer id to peer, in insertion order. *)
Abbreviation Peers := (list (string * Peer)).

(** The [onPeerJoin] and [onPeerLeave] callbacks. *)
Inductive PeerEvent :=
  | PeerJoin (peerId : string)
  | PeerLeave (peerId : string).

(** The test of [checkStalePeers]: [now - peer.lastSeen > 15000]. *)
Definition stale (now : Z) (entry : string * Peer) : bool :=
  15000 <? now - peer_lastSeen (snd entry).

(** [checkStalePeers()]: [now] is [Date.now()], [onPeerLeave] tells
    whether the callback is installed. The entries are visited in order;
    a stale one is deleted and reported. *)
Definition checkStalePeers (now : Z) (onPeerLeave : bool) (peers : Peers)
    : Peers * list PeerEvent :=
  (List.filter (λ entry, negb (stale now entry)) peers,
   if onPeerLeave
   then map (λ entry, PeerLeave (fst entry)) (List.filter (stale now) peers)
   else []).

(** [simulatedPeers.has(peerId)] *)
Definition hasPeer (peerId : string) (peers : Peers) : bool :=
  existsb (λ entry, bool_decide (fst entry = peerId)) peers.

(** [simulatedPeers.get(peerId).lastSeen = now] *)
Fixpoint touchPeer (peerId : string) (now : Z) (peers : Peers) : Peers :=
  match peers with
  | [] => []
  | (k, peer) :: rest =>
      if decide (k = peerId)
      then (k, mkPeer (peer_siteId peer) (peer_sessionId peer) now) :: rest
      else (k, peer) :: touchPeer peerId now rest
  end.

(** The presence branch of [handleStorageMessage]: [peerId] is the key
    without its prefix, [sessionId] the field of the parsed value, [own]
    the site of this replica and [now] is [Date.now()]. *)
Definition presenceReceived (own : string) (now : Z) (onPeerJoin : bool)
    (peers : Peers) (peerId sessionId : string) : Peers * list PeerEvent :=
  if decide (peerId ≠ own) then
    if negb (hasPeer peerId peers) then
      (peers ++ [(peerId, mkPeer peerId sessionId now)],
       if onPeerJoin then [PeerJoin peerId] else [])
    else (touchPeer peerId now peers, [])
  else (peers, []).

(** [getPeerCount()] *)
Definition getPeerCount (peers : Peers) : nat := length peers.

(** ** Histories of a replica *)

(** What can happen to a replica: the two local edits, a remote
    operation coming in, a garbage collection. *)
Inductive Action :=
  | LocalInsert (position : Z) (value : string)
  | LocalDelete (position : Z)
  | RemoteOp (op : Operation)
  | Collect (keepRecent : nat).

(** One action: the replica afterwards and the operation it returns to
    its caller, if any. *)
Definition act (crdt : CRDT) (a : Action) : CRDT * list Operation :=
  match a with
  | LocalInsert position value =>
      let '(crdt1, op) := localInsert crdt position value in (crdt1, [op])
  | LocalDelete position =>
      let '(crdt1, op) := localDelete crdt position in (crdt1, option_list op)
  | RemoteOp op => (applyRemote crdt op, [])
  | Collect keepRecent => (garbageCollect crdt keepRecent, [])
  end.

(** The actions one after the other, with the operations returned. *)
Fixpoint run (crdt : CRDT) (actions : list Action) : CRDT * list Operation :=
  match actions with
  | [] => (crdt, [])
  | a :: rest =>
      let '(crdt1, ops1) := act crdt a in
      let '(crdt2, ops2) := run crdt1 rest in
      (crdt2, ops1 ++ ops2)
  end.

(** The visible records, and the text they spell. *)
Definition visibleChars (crdt : CRDT) : list CRDTCharacter :=
  List.filter char_visible (characters crdt).

Definition visibleValues (crdt : CRDT) : list string :=
  map char_value (visibleChars crdt).

(** Every visible record holds exactly one code unit. *)
Definition singleChars (crdt : CRDT) : Prop :=
  ∀ c, c ∈ visibleChars crdt → ∃ a, char_value c = String a EmptyString.

(** No component of the clock is negative. *)
Definition nonNegative (c : Clock) : Prop := ∀ k, 0 ≤ get c k.

(** A change carried out on a text. *)
Definition applyChangeText (text : Text) (change : Change) : Text :=
  match change with
  | deleteChange position count =>
      take position text ++ drop (position + count) text
  | insertChange position inserted =>
      take position text ++ inserted ++ drop position text
  end.

(** The text of the replica as [handleInput] reads it. *)
Definition textOf (crdt : CRDT) : Text :=
  String.list_ascii_of_string (getText crdt).

(** The string of one code unit, [text[i]]. *)
Definition charAt (a : Ascii.ascii) : string := String a EmptyString.

(** The visible records spell [text], one code unit each. *)
Definition spells (crdt : CRDT) (text : Text) : Prop :=
  visibleValues crdt = map charAt text.

(** The first record with id [charId] turned into a tombstone. *)
Fixpoint tombstoneFirst (charId : string) (chars : list CRDTCharacter)
    : list CRDTCharacter :=
  match chars with
  | [] => []
  | c :: rest =>
      if decide (char_id c = charId) then setVisible false c :: rest
      else c :: tombstoneFirst charId rest
  end.

(** ** Facts about clocks *)

Section clock_facts.
Implicit Types a b : Clock.

Lemma get_outside a site : site ∉ dom a → get a site = 0.
Proof.
  intros H. unfold get. apply not_elem_of_dom in H. by rewrite H.
Qed.

Lemma get_insert_eq a site v : get (<[site := v]> a) site = v.
Proof. unfold get. by rewrite lookup_insert_eq. Qed.

Lemma get_insert_ne a site site' v :
  site ≠ site' → get (<[site := v]> a) site' = get a site'.
Proof. intros H. unfold get. by rewrite lookup_insert_ne. Qed.

(** [update] is the componentwise maximum on the keys of the other
    clock and leaves the other keys alone. *)
Lemma get_update (vc : VectorClock) (otherClock : Clock) site :
  get (vc_clock (update vc otherClock)) site =
    match otherClock !! site with
    | Some theirs => Z.max (get (vc_clock vc) site) theirs
    | None => get (vc_clock vc) site
    end.
Proof.
  unfold update; simpl. revert site.
  apply (map_fold_weak_ind
           (λ acc m, ∀ site, get acc site =
              match m !! site with
              | Some theirs => Z.max (get (vc_clock vc) site) theirs
              | None => get (vc_clock vc) site
              end)).
  - intros site. by rewrite lookup_empty.
  - intros i x m r Hi IH site. unfold update_step.
    destruct (decide (i = site)) as [->|Hne].
    + rewrite get_insert_eq, lookup_insert_eq, IH. by rewrite Hi.
    + rewrite get_insert_ne, lookup_insert_ne by done. apply IH.
Qed.

Lemma update_monotone (vc : VectorClock) (otherClock : Clock) site :
  get (vc_clock vc) site ≤ get (vc_clock (update vc otherClock)) site.
Proof. rewrite get_update. destruct (otherClock !! site); lia. Qed.

Lemma compareTo_flags a b (sites : list string) l g :
  foldl (compareTo_step a b) (l, g) sites =
    (l || existsb (λ s, get a s <? get b s) sites,
     g || existsb (λ s, get a s >? get b s) sites).
Proof.
  revert l g. induction sites as [|s sites IH]; intros l g; simpl.
  - by rewrite !orb_false_r.
  - cbn [foldl].
    replace (compareTo_step a b (l, g) s)
      with (l || (get a s <? get b s), g || (get a s >? get b s)).
    + rewrite IH. by rewrite !orb_assoc.
    + unfold compareTo_step; simpl.
      destruct (get a s <? get b s), (get a s >? get b s), l, g; reflexivity.
Qed.

Lemma anyLess_true a b : anyLess a b = true ↔ ∃ k, get a k < get b k.
Proof.
  unfold anyLess. rewrite existsb_exists. split.
  - intros (k & _ & Hk). exists k. lia.
  - intros (k & Hk). exists k. split; [|lia].
    apply list_elem_of_In, elem_of_elements.
    destruct (decide (k ∈ dom a ∪ dom b)) as [|Hn]; [done|].
    rewrite !get_outside in Hk; [lia|set_solver..].
Qed.

Lemma anyLess_false a b : anyLess a b = false ↔ ∀ k, get b k ≤ get a k.
Proof.
  rewrite <- not_true_iff_false, anyLess_true. split.
  - intros H k. destruct (Z_lt_le_dec (get a k) (get b k)); [|done].
    exfalso. eauto.
  - intros H (k & Hk). specialize (H k). lia.
Qed.

(** The result of [compareTo] in terms of the two existence tests. *)
Lemma compareTo_cases a b :
  compareTo a b =
    match anyLess a b, anyLess b a with
    | true, false => Some (-1)
    | false, true => Some 1
    | false, false => Some 0
    | true, true => None
    end.
Proof.
  unfold compareTo. rewrite compareTo_flags. simpl.
  replace (existsb (λ s, get a s >? get b s) (elements (dom a ∪ dom b)))
    with (anyLess b a).
  - fold (anyLess a b). by destruct (anyLess a b), (anyLess b a).
  - unfold anyLess. rewrite (union_comm_L (dom b) (dom a)).
    induction (elements (dom a ∪ dom b)) as [|s l IH]; [done|].
    simpl. by rewrite IH, Z.gtb_ltb.
Qed.
End clock_facts.

(** ** The causality comparator *)

Section causality.
Implicit Types a b : Clock.

Lemma compareTo_flip a b :
  compareTo a b = Some (-1) ↔ compareTo b a = Some 1.
Proof.
  rewrite !compareTo_cases.
  by destruct (anyLess a b), (anyLess b a).
Qed.

Lemma compareTo_Equal a b :
  compareTo a b = Some 0 ↔ ∀ k, get a k = get b k.
Proof.
  rewrite compareTo_cases. split.
  - destruct (anyLess a b) eqn:EL, (anyLess b a) eqn:EG; try done.
    intros _ k. rewrite anyLess_false in EL, EG.
    specialize (EL k). specialize (EG k). lia.
  - intros H.
    rewrite (proj2 (anyLess_false a b)), (proj2 (anyLess_false b a));
      [done|intros k; rewrite H; lia..].
Qed.

Lemma compareTo_Before a b :
  compareTo a b = Some (-1) ↔
    (∀ k, get a k ≤ get b k) ∧ ¬ (∀ k, get a k = get b k).
Proof.
  rewrite compareTo_cases.
  destruct (anyLess a b) eqn:EL, (anyLess b a) eqn:EG.
  - split; [done|]. intros [H _].
    apply anyLess_true in EG as [k Hk]. specialize (H k). lia.
  - split; [|done]. intros _.
    apply anyLess_true in EL as [k Hk]. rewrite anyLess_false in EG.
    split; [done|]. intros H. specialize (H k). lia.
  - split; [done|]. intros [H _].
    apply anyLess_true in EG as [k Hk]. specialize (H k). lia.
  - split; [done|]. intros [_ H]. destruct H. intros k.
    rewrite anyLess_false in EL, EG. specialize (EL k). specialize (EG k). lia.
Qed.

Lemma compareTo_Concurrent a b :
  compareTo a b = None ↔
    (∃ k, get b k < get a k) ∧ (∃ k, get a k < get b k).
Proof.
  rewrite compareTo_cases, <- !anyLess_true.
  destruct (anyLess a b), (anyLess b a); split; try done; by intros [? ?].
Qed.
End causality.

(** C10. [compareTo] is a sound causality comparator: it answers 0 exactly
    on componentwise equal clocks, -1 exactly when the first clock is
    componentwise below the second and differs from it, 1 in the mirrored
    case, and [null] exactly when each clock has a component strictly above
    the other's (a missing key counting as 0). Hence -1 one way round is 1
    the other way round. *)
Theorem compareTo_sound (a b : Clock) :
  (compareTo a b = Some 0 ↔ ∀ k, get a k = get b k) ∧
  (compareTo a b = Some (-1) ↔
     (∀ k, get a k ≤ get b k) ∧ ¬ (∀ k, get a k = get b k)) ∧
  (compareTo a b = Some 1 ↔
     (∀ k, get b k ≤ get a k) ∧ ¬ (∀ k, get a k = get b k)) ∧
  (compareTo a b = None ↔
     (∃ k, get b k < get a k) ∧ (∃ k, get a k < get b k)) ∧
  (compareTo a b = Some (-1) ↔ compareTo b a = Some 1).
Proof.
  split; [apply compareTo_Equal|].
  split; [apply compareTo_Before|].
  split; [|split; [apply compareTo_Concurrent|apply compareTo_flip]].
  rewrite <- compareTo_flip, compareTo_Before.
  split; intros [H1 H2]; (split; [done|]); intros H; apply H2;
    intros k; by rewrite H.
Qed.

(** ** The order on site ids and on clocks *)

Section site_order.
Implicit Types s : string.

Lemma compare_refl s : (s ?= s)%string = Eq.
Proof.
  pose proof (String.compare_antisym s s) as H.
  destruct (s ?= s)%string; simpl in H; congruence.
Qed.

Lemma slt_le s1 s2 : slt s1 s2 ↔ String.le s1 s2 ∧ s1 ≠ s2.
Proof.
  unfold slt, String.le, String.leb. split.
  - intros H. rewrite H. split; [done|].
    intros E. subst s2. rewrite compare_refl in H. congruence.
  - intros [H Hne]. destruct (s1 ?= s2)%string eqn:E; [|done|done].
    by apply String.compare_eq_iff in E.
Qed.

Lemma slt_irrefl s : ¬ slt s s.
Proof. rewrite slt_le. intros [_ H]. by apply H. Qed.

Lemma slt_trans s1 s2 s3 : slt s1 s2 → slt s2 s3 → slt s1 s3.
Proof.
  rewrite !slt_le. intros [H12 N12] [H23 N23]. split.
  - by etrans.
  - intros ->. apply N12. by apply (anti_symm String.le).
Qed.

Lemma slt_asym s1 s2 : slt s1 s2 → slt s2 s1 → False.
Proof. intros H1 H2. exact (slt_irrefl _ (slt_trans _ _ _ H1 H2)). Qed.

Lemma slt_trichotomy s1 s2 : slt s1 s2 ∨ s1 = s2 ∨ slt s2 s1.
Proof.
  unfold slt. pose proof (String.compare_antisym s2 s1) as H.
  destruct (s2 ?= s1)%string eqn:E; auto.
  - apply String.compare_eq_iff in E. auto.
  - destruct (s1 ?= s2)%string; simpl in H; auto; congruence.
Qed.

Lemma localeCompare_swap s1 s2 : localeCompare s2 s1 = - localeCompare s1 s2.
Proof.
  unfold localeCompare. rewrite (String.compare_antisym s2 s1).
  by destruct (s1 ?= s2)%string.
Qed.

Lemma localeCompare_neg s1 s2 : localeCompare s1 s2 < 0 ↔ slt s1 s2.
Proof.
  unfold localeCompare, slt. destruct (s1 ?= s2)%string; split; (done || lia).
Qed.

Lemma localeCompare_zero s1 s2 : localeCompare s1 s2 = 0 ↔ s1 = s2.
Proof.
  unfold localeCompare. split.
  - destruct (s1 ?= s2)%string eqn:E; [|lia..].
    intros _. by apply String.compare_eq_iff.
  - intros ->. by rewrite compare_refl.
Qed.
End site_order.

Section clock_order.
Implicit Types a b c : Clock.

Lemma ceq_refl a : ceq a a.
Proof. done. Qed.

Lemma ceq_sym a b : ceq a b → ceq b a.
Proof. intros H k. by rewrite H. Qed.

Lemma ceq_trans a b c : ceq a b → ceq b c → ceq a c.
Proof. intros H1 H2 k. by rewrite H1. Qed.

Lemma firstDiff_unique a b k1 k2 :
  firstDiff a b k1 → firstDiff a b k2 → k1 = k2.
Proof.
  intros [D1 B1] [D2 B2].
  destruct (slt_trichotomy k1 k2) as [H|[H|H]]; [|done|].
  - by apply B2 in H.
  - by apply B1 in H.
Qed.

Lemma clock_lt_not_ceq a b : clock_lt a b → ¬ ceq a b.
Proof. intros (k & [D _] & _) H. by apply D. Qed.

Lemma clock_lt_asym a b : clock_lt a b → clock_lt b a → False.
Proof.
  intros (k1 & F1 & L1) (k2 & [D2 B2] & L2).
  assert (firstDiff a b k2) as F2.
  { split; [congruence|]. intros k' Hk'. symmetry. by apply B2. }
  rewrite (firstDiff_unique _ _ _ _ F1 F2) in L1. lia.
Qed.

Lemma clock_lt_trans a b c : clock_lt a b → clock_lt b c → clock_lt a c.
Proof.
  intros (k1 & [D1 B1] & L1) (k2 & [D2 B2] & L2).
  destruct (slt_trichotomy k1 k2) as [H|[H|H]].
  - exists k1. pose proof (B2 k1 H). unfold firstDiff.
    split; [split|]; [lia| |lia].
    intros k' Hk'. rewrite (B1 k' Hk'). apply B2. by eapply slt_trans.
  - subst k2. exists k1. unfold firstDiff. split; [split|]; [lia| |lia].
    intros k' Hk'. rewrite (B1 k' Hk'). by apply B2.
  - exists k2. pose proof (B1 k2 H). unfold firstDiff.
    split; [split|]; [lia| |lia].
    intros k' Hk'. rewrite <- (B2 k' Hk'). apply B1. by eapply slt_trans.
Qed.

Lemma clock_lt_ceq_l a b c : ceq a b → clock_lt b c → clock_lt a c.
Proof.
  intros E (k & [D B] & L). exists k. pose proof (E k). unfold firstDiff.
  split; [split|]; [lia| |lia]. intros k' Hk'. rewrite (E k'). by apply B.
Qed.

Lemma clock_lt_ceq_r a b c : clock_lt a b → ceq b c → clock_lt a c.
Proof.
  intros (k & [D B] & L) E. exists k. pose proof (E k). unfold firstDiff.
  split; [split|]; [lia| |lia]. intros k' Hk'. rewrite <- (E k'). by apply B.
Qed.

(** What the loop finds on a sorted key list. *)
Lemma compareClocks_None sites a b :
  compareClocks sites a b = None ↔ ∀ k, k ∈ sites → get a k = get b k.
Proof.
  induction sites as [|s sites IH]; simpl.
  - split; [|done]. intros _ k Hk. by apply elem_of_nil in Hk.
  - destruct (decide (get a s ≠ get b s)) as [D|D].
    + split; [done|]. intros H. exfalso. apply D, H. by left.
    + apply dec_stable in D. rewrite IH. split.
      * intros H k Hk. apply elem_of_cons in Hk as [->|Hk]; auto.
      * intros H k Hk. apply H. by right.
Qed.

Lemma compareClocks_Some sites a b d :
  StronglySorted String.le sites →
  compareClocks sites a b = Some d →
  ∃ k, k ∈ sites ∧ d = get a k - get b k ∧ get a k ≠ get b k ∧
       ∀ k', k' ∈ sites → slt k' k → get a k' = get b k'.
Proof.
  induction 1 as [|s sites Hs IH Hall]; simpl; [done|].
  destruct (decide (get a s ≠ get b s)) as [D|D].
  - intros [= <-]. exists s. repeat split; [by left|done|].
    intros k' Hk' Hlt. apply elem_of_cons in Hk' as [->|Hk'].
    + by apply slt_irrefl in Hlt.
    + rewrite Forall_forall in Hall. apply Hall in Hk'.
      apply slt_le in Hlt as [Hle Hne]. exfalso. apply Hne.
      by apply (anti_symm String.le).
  - apply dec_stable in D. intros H. apply IH in H as (k & Hk & -> & Dk & Bk).
    exists k. repeat split; [by right|done|].
    intros k' Hk' Hlt. apply elem_of_cons in Hk' as [->|Hk']; auto.
Qed.

Lemma elem_of_sortedSites a b k : k ∈ sortedSites a b ↔ k ∈ dom a ∪ dom b.
Proof.
  unfold sortedSites. rewrite merge_sort_Permutation. apply elem_of_elements.
Qed.

Lemma outside_sortedSites a b k : k ∉ sortedSites a b → get a k = get b k.
Proof.
  rewrite elem_of_sortedSites. intros H.
  rewrite !get_outside; [done|set_solver..].
Qed.

Lemma sortedSites_sorted a b : StronglySorted String.le (sortedSites a b).
Proof. apply StronglySorted_merge_sort; apply _. Qed.

Lemma sortedSites_comm a b : sortedSites a b = sortedSites b a.
Proof. unfold sortedSites. by rewrite (union_comm_L (dom a)). Qed.

(** The comparison of two clocks over their sorted keys is the
    comparison at their first difference. *)
Lemma compareClocks_equal a b :
  compareClocks (sortedSites a b) a b = None ↔ ceq a b.
Proof.
  rewrite compareClocks_None. split.
  - intros H k. destruct (decide (k ∈ sortedSites a b)); auto.
    by apply outside_sortedSites.
  - intros H k _. apply H.
Qed.

Lemma compareClocks_differ a b d :
  compareClocks (sortedSites a b) a b = Some d ↔
  ∃ k, firstDiff a b k ∧ d = get a k - get b k.
Proof.
  split.
  - intros H. apply compareClocks_Some in H as (k & Hk & -> & D & B);
      [|apply sortedSites_sorted].
    exists k. repeat split; [done|].
    intros k' Hlt. destruct (decide (k' ∈ sortedSites a b)); auto.
    by apply outside_sortedSites.
  - intros (k & F & ->).
    destruct (compareClocks (sortedSites a b) a b) as [d|] eqn:E.
    + apply compareClocks_Some in E as (k' & Hk' & -> & D & B);
        [|apply sortedSites_sorted].
      assert (firstDiff a b k') as F'.
      { split; [done|]. intros k'' Hlt.
        destruct (decide (k'' ∈ sortedSites a b)); auto.
        by apply outside_sortedSites. }
      by rewrite (firstDiff_unique _ _ _ _ F F').
    + apply compareClocks_equal in E. destruct F as [D _]. by destruct D.
Qed.

Lemma compareClocks_swap sites a b :
  compareClocks sites b a = Z.opp <$> compareClocks sites a b.
Proof.
  induction sites as [|s sites IH]; simpl; [done|].
  destruct (decide (get b s ≠ get a s)) as [D1|D1],
    (decide (get a s ≠ get b s)) as [D2|D2]; simpl.
  - f_equal. lia.
  - exfalso. apply D2. congruence.
  - exfalso. apply D1. congruence.
  - apply IH.
Qed.
End clock_order.

(** ** The order on characters *)

Section character_order.
Implicit Types x y z : CRDTCharacter.

Lemma compareCharacters_swap x y :
  compareCharacters y x = - compareCharacters x y.
Proof.
  unfold compareCharacters.
  rewrite (sortedSites_comm (char_vectorClock y)), compareClocks_swap.
  destruct (compareClocks _ (char_vectorClock x) _); simpl; [done|].
  destruct (decide (char_siteId y ≠ char_siteId x)) as [D1|D1],
    (decide (char_siteId x ≠ char_siteId y)) as [D2|D2].
  - apply localeCompare_swap.
  - exfalso. apply D2. congruence.
  - exfalso. apply D1. congruence.
  - apply localeCompare_swap.
Qed.

(** The comparison is negative exactly in the lexicographic order on
    (clock at the first differing site, site id, character id). *)
Lemma compareCharacters_neg x y :
  compareCharacters x y < 0 ↔
    clock_lt (char_vectorClock x) (char_vectorClock y) ∨
    (ceq (char_vectorClock x) (char_vectorClock y) ∧
     (slt (char_siteId x) (char_siteId y) ∨
      (char_siteId x = char_siteId y ∧ slt (char_id x) (char_id y)))).
Proof.
  unfold compareCharacters.
  destruct (compareClocks _ _ _) as [d|] eqn:E.
  - apply compareClocks_differ in E as (k & F & ->). split.
    + intros H. left. exists k. split; [done|lia].
    + intros [(k' & F' & L)|[Heq _]].
      * rewrite (firstDiff_unique _ _ _ _ F F'). lia.
      * destruct F as [D _]. by destruct D.
  - apply compareClocks_equal in E.
    destruct (decide (char_siteId x ≠ char_siteId y)) as [D|D].
    + rewrite localeCompare_neg. split.
      * intros H. right. auto.
      * intros [H|[_ [H|[H _]]]]; [|done..].
        by apply clock_lt_not_ceq in H.
    + apply dec_stable in D. rewrite localeCompare_neg. split.
      * intros H. right. auto.
      * intros [H|[_ [H|[_ H]]]]; [| |done].
        -- by apply clock_lt_not_ceq in H.
        -- rewrite D in H. by apply slt_irrefl in H.
Qed.

Lemma compareCharacters_zero x y :
  compareCharacters x y = 0 →
  ceq (char_vectorClock x) (char_vectorClock y) ∧
  char_siteId x = char_siteId y ∧ char_id x = char_id y.
Proof.
  unfold compareCharacters.
  destruct (compareClocks _ _ _) as [d|] eqn:E.
  - apply compareClocks_differ in E as (k & [D _] & ->). lia.
  - apply compareClocks_equal in E.
    destruct (decide (char_siteId x ≠ char_siteId y)) as [D|D];
      rewrite localeCompare_zero; [done|].
    apply dec_stable in D. done.
Qed.

Lemma char_lt_irrefl x : ¬ char_lt x x.
Proof.
  unfold char_lt. pose proof (compareCharacters_swap x x). lia.
Qed.

Lemma char_lt_asym x y : char_lt x y → char_lt y x → False.
Proof.
  unfold char_lt. pose proof (compareCharacters_swap x y). lia.
Qed.

Lemma char_lt_trans x y z : char_lt x y → char_lt y z → char_lt x z.
Proof.
  unfold char_lt. rewrite !compareCharacters_neg.
  intros [C1|[E1 T1]] [C2|[E2 T2]].
  - left. by eapply clock_lt_trans.
  - left. by eapply clock_lt_ceq_r.
  - left. by eapply clock_lt_ceq_l.
  - right. split; [by eapply ceq_trans|].
    destruct T1 as [S1|[S1 I1]], T2 as [S2|[S2 I2]].
    + left. by eapply slt_trans.
    + left. by rewrite <- S2.
    + left. by rewrite S1.
    + right. split; [congruence|]. by eapply slt_trans.
Qed.

(** Two records with different ids are never equivalent. *)
Lemma char_lt_total x y :
  char_id x ≠ char_id y → char_lt x y ∨ char_lt y x.
Proof.
  intros Hne. unfold char_lt.
  pose proof (compareCharacters_swap x y).
  pose proof (compareCharacters_zero x y).
  destruct (Z.lt_trichotomy (compareCharacters x y) 0) as [?|[?|?]];
    [by left| |right; lia].
  exfalso. apply Hne. by destruct (compareCharacters_zero x y) as (_ & _ & ?).
Qed.

Lemma compareCharacters_setVisible_l v x y :
  compareCharacters (setVisible v x) y = compareCharacters x y.
Proof. done. Qed.

Lemma compareCharacters_setVisible_r v x y :
  compareCharacters x (setVisible v y) = compareCharacters x y.
Proof. done. Qed.
End character_order.

(** ** The document as a sorted sequence *)

Section document.
Implicit Types chars : list CRDTCharacter.
Implicit Types c char : CRDTCharacter.

Lemma splice_cons (n : nat) c c' chars :
  splice (S n) c (c' :: chars) = c' :: splice n c chars.
Proof. done. Qed.

Lemma findInsertIndex_shift chars char i :
  findInsertIndex chars char i i = (i + findInsertIndex chars char 0 0)%nat.
Proof.
  revert i. induction chars as [|c rest IH]; intros i; simpl.
  - lia.
  - destruct (compareCharacters c char <? 0); [|lia].
    rewrite (IH (S i)), (IH 1%nat). lia.
Qed.

Lemma findInsertIndex_le chars char :
  (findInsertIndex chars char 0 0 ≤ length chars)%nat.
Proof.
  induction chars as [|c rest IH]; simpl; [lia|].
  destruct (compareCharacters c char <? 0); [|lia].
  rewrite findInsertIndex_shift. lia.
Qed.

(** The scan followed by [splice] is the sorted placement. *)
Lemma splice_findInsertIndex chars char :
  splice (findInsertIndex chars char 0 0) char chars = insertSorted char chars.
Proof.
  induction chars as [|c rest IH]; simpl; [done|].
  destruct (compareCharacters c char <? 0); [|done].
  rewrite findInsertIndex_shift. simpl. rewrite splice_cons. by rewrite IH.
Qed.

Lemma insertSorted_Permutation char chars :
  insertSorted char chars ≡ₚ char :: chars.
Proof.
  induction chars as [|c rest IH]; simpl; [done|].
  destruct (compareCharacters c char <? 0); [|done].
  rewrite IH. apply perm_swap.
Qed.

Lemma insertSorted_sorted char chars :
  sortedDocument chars →
  char_id char ∉ map char_id chars →
  sortedDocument (insertSorted char chars).
Proof.
  unfold sortedDocument. induction 1 as [|c rest Hs IH Hall]; intros Hid; simpl.
  - repeat constructor.
  - assert (char_id c ≠ char_id char ∧ char_id char ∉ map char_id rest)
      as [Hc Hrest].
    { simpl in Hid. rewrite not_elem_of_cons in Hid. destruct Hid as [H1 H2].
      split; [congruence|done]. }
    destruct (compareCharacters c char <? 0) eqn:E.
    + apply Z.ltb_lt in E. constructor; [by apply IH|].
      rewrite insertSorted_Permutation. by constructor.
    + apply Z.ltb_ge in E.
      assert (char_lt char c) as Hlt.
      { destruct (char_lt_total char c) as [?|H]; [congruence|done|].
        unfold char_lt in H. lia. }
      constructor; [by constructor|]. constructor; [done|].
      eapply Forall_impl; [exact Hall|].
      intros z Hz. by eapply char_lt_trans.
Qed.

Lemma existsb_id_true char chars :
  existsb (λ c, bool_decide (char_id c = char_id char)) chars = true
  ↔ char_id char ∈ map char_id chars.
Proof.
  rewrite existsb_exists, list_elem_of_fmap. split.
  - intros (c & Hin & Hc). exists c. apply bool_decide_eq_true in Hc.
    split; [done|]. by apply list_elem_of_In.
  - intros (c & Hc & Hin). exists c.
    split; [by apply list_elem_of_In|]. by apply bool_decide_eq_true.
Qed.

(** [remoteInsert] on the character sequence. *)
Lemma remoteInsert_characters (r : CRDT) opClock char :
  characters (remoteInsert r opClock char) =
    if bool_decide (char_id char ∈ map char_id (characters r))
    then characters r
    else insertSorted char (characters r).
Proof.
  unfold remoteInsert; simpl. rewrite splice_findInsertIndex.
  destruct (existsb _ _) eqn:E.
  - apply existsb_id_true in E. by rewrite bool_decide_eq_true_2.
  - rewrite bool_decide_eq_false_2; [done|].
    intros H. apply existsb_id_true in H. congruence.
Qed.

Lemma findIndex_None chars charId i :
  findIndex chars charId i = None ↔ charId ∉ map char_id chars.
Proof.
  revert i. induction chars as [|c rest IH]; intros i; simpl.
  - split; [|done]. intros _. apply not_elem_of_nil.
  - rewrite not_elem_of_cons. destruct (decide (char_id c = charId)).
    + split; [done|]. intros [H _]. congruence.
    + rewrite IH. split; [intros H; split; [congruence|done]|by intros [_ H]].
Qed.

Lemma findIndex_shift chars charId i :
  findIndex chars charId (S i) = S <$> findIndex chars charId i.
Proof.
  revert i. induction chars as [|c rest IH]; intros i; simpl; [done|].
  destruct (decide (char_id c = charId)); [done|]. apply IH.
Qed.

(** With unique ids, flipping the first match flips every match. *)
Lemma alter_findIndex chars charId :
  NoDup (map char_id chars) →
  match findIndex chars charId 0 with
  | Some charIndex => alter (setVisible false) charIndex chars
  | None => chars
  end = map (tombstoneId charId) chars.
Proof.
  induction chars as [|c rest IH]; simpl; [done|].
  intros Hnd. apply NoDup_cons in Hnd as [Hc Hnd].
  unfold tombstoneId at 1. destruct (decide (char_id c = charId)) as [E|E].
  - simpl. f_equal. subst charId.
    clear IH Hnd. induction rest as [|c' rest IH]; simpl; [done|].
    simpl in Hc. rewrite not_elem_of_cons in Hc. destruct Hc as [Hne Hc].
    unfold tombstoneId at 1. rewrite decide_False by congruence.
    f_equal. by apply IH.
  - rewrite findIndex_shift. specialize (IH Hnd).
    destruct (findIndex rest charId 0) as [j|]; simpl; by rewrite <- IH.
Qed.

Lemma remoteDelete_characters (r : CRDT) opClock charId :
  NoDup (map char_id (characters r)) →
  characters (remoteDelete r opClock charId) =
    map (tombstoneId charId) (characters r).
Proof. intros H. unfold remoteDelete; simpl. by apply alter_findIndex. Qed.

Lemma remoteDelete_unknown (r : CRDT) opClock charId :
  charId ∉ map char_id (characters r) →
  characters (remoteDelete r opClock charId) = characters r.
Proof.
  intros H. unfold remoteDelete; simpl.
  by rewrite (proj2 (findIndex_None _ _ _) H).
Qed.

Lemma tombstoneId_id charId c : char_id (tombstoneId charId c) = char_id c.
Proof. unfold tombstoneId. by destruct (decide _). Qed.

Lemma map_tombstoneId_ids charId chars :
  map char_id (map (tombstoneId charId) chars) = map char_id chars.
Proof.
  induction chars as [|c rest IH]; simpl; [done|].
  by rewrite tombstoneId_id, IH.
Qed.

Lemma tombstoneId_sorted charId chars :
  sortedDocument chars → sortedDocument (map (tombstoneId charId) chars).
Proof.
  apply (StronglySorted_fmap (tombstoneId charId) char_lt char_lt).
  intros x y. unfold tombstoneId.
  by destruct (decide (char_id x = charId)), (decide (char_id y = charId)).
Qed.
End document.

(** ** Replaying remote operations *)

Section replay.
Implicit Types ops : list Operation.
Implicit Types r : CRDT.

Lemma replay_snoc ops op r :
  replay (ops ++ [op]) r = applyRemote (replay ops r) op.
Proof. unfold replay. by rewrite foldl_app. Qed.

Lemma settled_id ops c : char_id (settled ops c) = char_id c.
Proof. unfold settled. by destruct (bool_decide _). Qed.

Lemma map_settled_ids ops chars :
  map char_id (map (settled ops) chars) = map char_id chars.
Proof.
  induction chars as [|c rest IH]; simpl; [done|].
  by rewrite settled_id, IH.
Qed.

Lemma deletesFollowInserts_snoc ops op :
  deletesFollowInserts (ops ++ [op]) →
  deletesFollowInserts ops ∧
  ∀ char, op_type op = Insert char → char_id char ∉ deletedIds ops.
Proof.
  induction ops as [|o ops IH]; simpl.
  - intros _. split; [done|]. intros char _. apply not_elem_of_nil.
  - intros [Ho Hrest]. destruct (IH Hrest) as [IH1 IH2]. split.
    + split; [|done]. destruct (op_type o) as [|charId]; [done|].
      intros Hin. apply Ho. unfold insertedChars. rewrite omap_app, map_app.
      apply elem_of_app. by left.
    + intros char Hop. unfold deletedIds. simpl.
      unfold deletedId at 1. destruct (op_type o) as [|charId] eqn:Eo.
      * by apply IH2.
      * apply not_elem_of_cons. split; [|by apply IH2].
        intros E. apply Ho. rewrite <- E. unfold insertedChars.
        rewrite omap_app, map_app. apply elem_of_app. right.
        simpl. unfold insertedChar. rewrite Hop. simpl. by left.
Qed.

Lemma insertedChars_snoc ops op :
  insertedChars (ops ++ [op]) =
    insertedChars ops ++
      match op_type op with Insert char => [char] | Delete _ => [] end.
Proof.
  unfold insertedChars. rewrite omap_app. simpl. unfold insertedChar at 2.
  by destruct (op_type op).
Qed.

Lemma deletedIds_snoc ops op :
  deletedIds (ops ++ [op]) =
    deletedIds ops ++
      match op_type op with Insert _ => [] | Delete charId => [charId] end.
Proof.
  unfold deletedIds. rewrite omap_app. simpl. unfold deletedId at 2.
  by destruct (op_type op).
Qed.

Lemma settled_snoc ops op c :
  settled (ops ++ [op]) c =
    match op_type op with
    | Insert _ => settled ops c
    | Delete charId => tombstoneId charId (settled ops c)
    end.
Proof.
  unfold settled. rewrite deletedIds_snoc.
  destruct (op_type op) as [char|charId]; [by rewrite app_nil_r|].
  unfold tombstoneId.
  destruct (bool_decide (char_id c ∈ deletedIds ops)) eqn:B.
  - apply bool_decide_eq_true in B.
    rewrite bool_decide_eq_true_2 by (apply elem_of_app; by left).
    by destruct (decide _).
  - apply bool_decide_eq_false in B.
    destruct (decide (char_id c = charId)) as [E|E].
    + rewrite bool_decide_eq_true_2; [done|].
      apply elem_of_app. right. rewrite E. by left.
    + rewrite bool_decide_eq_false_2; [done|].
      rewrite elem_of_app, list_elem_of_singleton. by intros [?|?].
Qed.

(** The document after a replay: sorted, and made of the inserted
    records, each a tombstone exactly when its delete was replayed. *)
Lemma replay_invariant ops r :
  characters r = [] →
  uniqueIds ops →
  deletesFollowInserts ops →
  sortedDocument (characters (replay ops r)) ∧
  characters (replay ops r) ≡ₚ map (settled ops) (insertedChars ops).
Proof.
  intros Hr. induction ops as [|op ops IH] using rev_ind; intros Hu Hd.
  - simpl. rewrite Hr. split; [constructor|done].
  - apply deletesFollowInserts_snoc in Hd as [Hd Hop].
    unfold uniqueIds in Hu. rewrite insertedChars_snoc, map_app in Hu.
    apply NoDup_app in Hu as (Hu & Hfresh & _).
    destruct (IH Hu Hd) as [Hs Hp]. clear IH.
    assert (map char_id (characters (replay ops r))
            ≡ₚ map char_id (insertedChars ops)) as Hids.
    { rewrite Hp. by rewrite map_settled_ids. }
    rewrite replay_snoc, insertedChars_snoc.
    rewrite (map_ext _ _ (settled_snoc ops op)).
    unfold applyRemote.
    destruct (op_type op) as [char|charId].
    + rewrite remoteInsert_characters.
      assert (char_id char ∉ map char_id (characters (replay ops r))) as Hn.
      { rewrite Hids. intros Hin. apply (Hfresh _ Hin). simpl. by left. }
      rewrite bool_decide_eq_false_2 by done. split.
      * by apply insertSorted_sorted.
      * rewrite insertSorted_Permutation, map_app. simpl.
        rewrite Permutation_cons_append. apply Permutation_app; [done|].
        unfold settled. rewrite bool_decide_eq_false_2; [done|].
        by apply Hop.
    + rewrite remoteDelete_characters.
      2:{ by rewrite Hids. }
      split; [by apply tombstoneId_sorted|].
      by rewrite app_nil_r, Hp, map_map.
Qed.

Lemma settled_Permutation ops1 ops2 c :
  ops1 ≡ₚ ops2 → settled ops1 c = settled ops2 c.
Proof.
  intros H. unfold settled.
  assert (deletedIds ops1 ≡ₚ deletedIds ops2) as Hd
    by (unfold deletedIds; by rewrite H).
  destruct (bool_decide (char_id c ∈ deletedIds ops1)) eqn:B.
  - apply bool_decide_eq_true in B. rewrite Hd in B.
    by rewrite bool_decide_eq_true_2.
  - apply bool_decide_eq_false in B. rewrite Hd in B.
    by rewrite bool_decide_eq_false_2.
Qed.
End replay.

(** ** Convergence of replicas *)

(** C1 (as amended). Two fresh replicas that apply the same operations
    through [remoteInsert] and [remoteDelete], in two orders, end with the
    same character sequence (same records, same order, same visible flags)
    and the same text, provided the inserted records have pairwise
    different ids and in neither order a delete comes before the insert of
    its target. *)
Theorem replay_convergence (ops1 ops2 : list Operation) (site1 site2 : string) :
  ops1 ≡ₚ ops2 →
  uniqueIds ops1 →
  deletesFollowInserts ops1 →
  deletesFollowInserts ops2 →
  characters (replay ops1 (newCRDT site1)) =
    characters (replay ops2 (newCRDT site2)) ∧
  getText (replay ops1 (newCRDT site1)) = getText (replay ops2 (newCRDT site2)).
Proof.
  intros Hperm Hu1 Hd1 Hd2.
  assert (uniqueIds ops2) as Hu2.
  { unfold uniqueIds, insertedChars in *. by rewrite <- Hperm. }
  destruct (replay_invariant ops1 (newCRDT site1) eq_refl Hu1 Hd1) as [Hs1 Hp1].
  destruct (replay_invariant ops2 (newCRDT site2) eq_refl Hu2 Hd2) as [Hs2 Hp2].
  assert (characters (replay ops1 (newCRDT site1)) =
          characters (replay ops2 (newCRDT site2))) as Heq.
  { apply (StronglySorted_unique_strong char_lt); [|done|done|].
    - intros x y _ _ Hxy Hyx. destruct (char_lt_asym _ _ Hxy Hyx).
    - rewrite Hp1, Hp2.
      rewrite (map_ext _ _ (λ c, settled_Permutation ops1 ops2 c Hperm)).
      unfold insertedChars. by rewrite Hperm. }
  split; [done|]. unfold getText. by rewrite Heq.
Qed.

Lemma replay_convergence_witness :
  [insertX; insertY; deleteX] ≡ₚ [insertY; insertX; deleteX] ∧
  characters (replay [insertX; insertY; deleteX] (newCRDT "a")) =
    characters (replay [insertY; insertX; deleteX] (newCRDT "c")) ∧
  getText (replay [insertX; insertY; deleteX] (newCRDT "a")) =
    getText (replay [insertY; insertX; deleteX] (newCRDT "c")).
Proof.
  assert ([insertX; insertY; deleteX] ≡ₚ [insertY; insertX; deleteX]) as P
    by apply perm_swap.
  split; [exact P|].
  apply (replay_convergence _ _ "a" "c" P).
  - apply (bool_decide_unpack _). by vm_compute.
  - simpl. repeat split. apply (bool_decide_unpack _). by vm_compute.
  - simpl. repeat split. apply (bool_decide_unpack _). by vm_compute.
Defined.

(** A delete applied before the insert of its target is lost: the two
    orders of the same two operations leave different flags. *)
Lemma replay_delete_first_counterexample :
  [insertX; deleteX] ≡ₚ [deleteX; insertX] ∧
  characters (replay [insertX; deleteX] (newCRDT "a")) ≠
    characters (replay [deleteX; insertX] (newCRDT "c")).
Proof.
  split; [apply perm_swap|].
  intros H. apply (f_equal (map char_visible)) in H.
  vm_compute in H. discriminate H.
Qed.

(** ** Deletes whose target is unknown *)

Section unknown_target.
Implicit Types chars : list CRDTCharacter.

Lemma tombstone_inserted char chars :
  char_id char ∉ map char_id chars →
  match findIndex (insertSorted char chars) (char_id char) 0 with
  | Some charIndex =>
      alter (setVisible false) charIndex (insertSorted char chars)
  | None => insertSorted char chars
  end = insertSorted (setVisible false char) chars.
Proof.
  induction chars as [|c rest IH]; simpl; intros Hid.
  - by rewrite decide_True.
  - rewrite not_elem_of_cons in Hid. destruct Hid as [Hc Hrest].
    rewrite compareCharacters_setVisible_r.
    destruct (compareCharacters c char <? 0); simpl.
    + rewrite decide_False by congruence.
      rewrite findIndex_shift. specialize (IH Hrest).
      destruct (findIndex (insertSorted char rest) (char_id char) 0);
        simpl; by rewrite <- IH.
    + by rewrite decide_True.
Qed.

Lemma findInsertIndex_setVisible v char chars i j :
  findInsertIndex chars (setVisible v char) i j =
    findInsertIndex chars char i j.
Proof.
  revert i j. induction chars as [|c rest IH]; intros i j; simpl; [done|].
  rewrite compareCharacters_setVisible_r.
  destruct (compareCharacters c char <? 0); [apply IH|done].
Qed.
End unknown_target.

(** C5 (as amended). A delete whose target has no record in the document
    is dropped: [remoteDelete] leaves the character sequence as it is and
    nothing is kept for later. The insert that arrives afterwards puts the
    record in with the flag it carries, whereas the insert followed by the
    delete leaves the same record, at the same place, as a tombstone. *)
Theorem remoteDelete_unknown_target (r : CRDT) (dClock iClock : Clock)
    (char : CRDTCharacter) :
  char_id char ∉ map char_id (characters r) →
  let k := findInsertIndex (characters r) char 0 0 in
  characters (remoteDelete r dClock (char_id char)) = characters r ∧
  characters (remoteInsert (remoteDelete r dClock (char_id char)) iClock char)
    = splice k char (characters r) ∧
  characters (remoteDelete (remoteInsert r iClock char) dClock (char_id char))
    = splice k (setVisible false char) (characters r).
Proof.
  intros Hid k. subst k.
  assert (splice (findInsertIndex (characters r) char 0 0)
            (setVisible false char) (characters r)
          = insertSorted (setVisible false char) (characters r)) as Htomb.
  { rewrite <- (findInsertIndex_setVisible false).
    apply splice_findInsertIndex. }
  rewrite Htomb, splice_findInsertIndex.
  split; [by apply remoteDelete_unknown|]. split.
  - rewrite remoteInsert_characters, remoteDelete_unknown by done.
    by rewrite bool_decide_eq_false_2.
  - unfold remoteDelete; simpl. rewrite splice_findInsertIndex.
    destruct (existsb _ _) eqn:E.
    + apply existsb_id_true in E. done.
    + by apply tombstone_inserted.
Qed.

Lemma remoteDelete_unknown_target_witness :
  characters (remoteDelete (newCRDT "a") {[ "b" := 3 ]} "b-0") = [] ∧
  characters
    (remoteInsert (remoteDelete (newCRDT "a") {[ "b" := 3 ]} "b-0")
       {[ "b" := 1 ]} sampleX) = [sampleX] ∧
  characters
    (remoteDelete (remoteInsert (newCRDT "a") {[ "b" := 1 ]} sampleX)
       {[ "b" := 3 ]} "b-0") = [setVisible false sampleX].
Proof.
  apply (remoteDelete_unknown_target (newCRDT "a") {[ "b" := 3 ]}
           {[ "b" := 1 ]} sampleX).
  simpl. apply not_elem_of_nil.
Defined.

(** The delete that overtook its insert leaves the record visible; the
    other order leaves a tombstone. *)
Lemma delete_before_insert_counterexample :
  ("b-0" ∉ map char_id (characters (newCRDT "a"))) ∧
  characters
    (remoteInsert (remoteDelete (newCRDT "a") {[ "b" := 3 ]} "b-0")
       {[ "b" := 1 ]} sampleX) ≠
  characters
    (remoteDelete (remoteInsert (newCRDT "a") {[ "b" := 1 ]} sampleX)
       {[ "b" := 3 ]} "b-0").
Proof.
  split; [apply not_elem_of_nil|].
  intros H. apply (f_equal (map char_visible)) in H.
  vm_compute in H. discriminate H.
Qed.

(** ** Local edits *)

Section visible_position.
Implicit Types chars : list CRDTCharacter.

Lemma visibleLength_cons c chars :
  visibleLength (c :: chars) =
    ((if char_visible c then 1 else 0) + visibleLength chars)%nat.
Proof. unfold visibleLength. simpl. by destruct (char_visible c). Qed.

(** Below the running count nothing matches: the scan runs off the end. *)
Lemma getVisiblePosition_from_below chars i visibleCount index :
  index < visibleCount →
  getVisiblePosition_from chars i visibleCount index = (i + length chars)%nat.
Proof.
  revert i visibleCount. induction chars as [|c rest IH];
    intros i visibleCount Hlt; simpl; [lia|].
  destruct (char_visible c).
  - destruct (visibleCount =? index) eqn:E; [lia|].
    rewrite IH by lia. lia.
  - rewrite IH by lia. lia.
Qed.

(** From the running count on, the scan stops at the record whose
    visible index is the requested one, or at the end. *)
Lemma getVisiblePosition_from_spec chars i visibleCount index :
  visibleCount ≤ index →
  ∃ k : nat,
    getVisiblePosition_from chars i visibleCount index = (i + k)%nat ∧
    (k ≤ length chars)%nat ∧
    Z.of_nat (visibleLength (take k chars))
      = Z.min (index - visibleCount) (Z.of_nat (visibleLength chars)) ∧
    (Z.of_nat (visibleLength chars) ≤ index - visibleCount →
     k = length chars).
Proof.
  revert i visibleCount. induction chars as [|c rest IH];
    intros i visibleCount Hle; simpl.
  - exists 0%nat. unfold visibleLength. simpl. repeat split; lia.
  - destruct (char_visible c) eqn:V.
    + destruct (visibleCount =? index) eqn:E.
      * apply Z.eqb_eq in E. exists 0%nat.
        rewrite visibleLength_cons, V. unfold visibleLength at 1. simpl.
        repeat split; lia.
      * apply Z.eqb_neq in E.
        destruct (IH (S i) (visibleCount + 1)) as (k & Hk & Hlen & Hvis & Hend);
          [lia|].
        exists (S k). rewrite Hk. simpl.
        rewrite !visibleLength_cons, V. repeat split; lia.
    + destruct (IH (S i) visibleCount) as (k & Hk & Hlen & Hvis & Hend);
        [lia|].
      exists (S k). rewrite Hk. simpl.
      rewrite !visibleLength_cons, V. repeat split; lia.
Qed.

Lemma getVisiblePosition_out_of_range (r : CRDT) position :
  position < 0 ∨ Z.of_nat (visibleLength (characters r)) ≤ position →
  getVisiblePosition r position = length (characters r).
Proof.
  unfold getVisiblePosition. intros [H|H].
  - by rewrite getVisiblePosition_from_below.
  - destruct (Z_lt_le_dec position 0) as [Hneg|Hpos].
    + by rewrite getVisiblePosition_from_below.
    + destruct (getVisiblePosition_from_spec (characters r) 0 0 position Hpos)
        as (k & Hk & _ & _ & Hend).
      rewrite Hk. simpl. apply Hend. lia.
Qed.
End visible_position.

(** C9. [localInsert(position, value)], for a position that is not
    negative, creates a visible record holding [value] whose visible index
    in the new document is [position] cut down to the visible length: past
    the end of the visible text the record goes to the end of the array. *)
Theorem localInsert_visible_index (r : CRDT) (position : Z) (value : string) :
  0 ≤ position →
  let r' := fst (localInsert r position value) in
  let op := snd (localInsert r position value) in
  ∃ (char : CRDTCharacter) (k : nat),
    op_type op = Insert char ∧
    op_position op = Z.of_nat k ∧
    characters r' = take k (characters r) ++ char :: drop k (characters r) ∧
    characters r' !! k = Some char ∧
    char_visible char = true ∧
    char_value char = value ∧
    Z.of_nat (visibleIndex k (characters r'))
      = Z.min position (Z.of_nat (visibleLength (characters r))) ∧
    (Z.of_nat (visibleLength (characters r)) ≤ position →
     k = length (characters r)).
Proof.
  intros Hpos r' op. subst r' op. unfold localInsert.
  destruct (increment (vectorClock r)) as [vc timestamp].
  destruct (generateId r) as [id r1] eqn:Eid. simpl.
  unfold getVisiblePosition.
  destruct (getVisiblePosition_from_spec (characters r) 0 0 position Hpos)
    as (k & Hk & Hlen & Hvis & Hend).
  rewrite Hk. simpl.
  exists (newCRDTCharacter value id (siteId r) (getCopy vc)), k.
  unfold splice, visibleIndex.
  repeat split; [| |intros; apply Hend; lia].
  - rewrite lookup_app_r by (rewrite length_take; lia).
    rewrite length_take, Nat.min_l by lia. by rewrite Nat.sub_diag.
  - rewrite take_app_le by (rewrite length_take; lia).
    rewrite take_take, Nat.min_id. lia.
Qed.

Lemma localInsert_visible_index_witness :
  0 ≤ 7 ∧
  ∃ (char : CRDTCharacter) (k : nat),
    op_type (snd (localInsert (newCRDT "s") 7 "a")) = Insert char ∧
    op_position (snd (localInsert (newCRDT "s") 7 "a")) = Z.of_nat k ∧
    characters (fst (localInsert (newCRDT "s") 7 "a")) =
      take k (characters (newCRDT "s")) ++
      char :: drop k (characters (newCRDT "s")) ∧
    characters (fst (localInsert (newCRDT "s") 7 "a")) !! k = Some char ∧
    char_visible char = true ∧
    char_value char = "a" ∧
    Z.of_nat (visibleIndex k (characters (fst (localInsert (newCRDT "s") 7 "a"))))
      = Z.min 7 (Z.of_nat (visibleLength (characters (newCRDT "s")))) ∧
    (Z.of_nat (visibleLength (characters (newCRDT "s"))) ≤ 7 →
     k = length (characters (newCRDT "s"))).
Proof.
  split; [lia|].
  apply (localInsert_visible_index (newCRDT "s") 7 "a"). lia.
Defined.

(** C6. A [localDelete] whose position is outside the visible text
    returns [null], logs no operation and leaves the document as it is;
    the local component of the vector clock has nevertheless been
    incremented, the increment being the first statement of the method. *)
Theorem localDelete_out_of_range (r : CRDT) (position : Z) :
  position < 0 ∨ Z.of_nat (visibleLength (characters r)) ≤ position →
  let r' := fst (localDelete r position) in
  snd (localDelete r position) = None ∧
  characters r' = characters r ∧
  operationHistory r' = operationHistory r ∧
  get (vc_clock (vectorClock r')) (vc_siteId (vectorClock r))
    = get (vc_clock (vectorClock r)) (vc_siteId (vectorClock r)) + 1.
Proof.
  intros Hout r'. subst r'. unfold localDelete.
  rewrite (getVisiblePosition_out_of_range r position Hout).
  unfold increment. rewrite Nat.leb_refl. simpl.
  repeat split. apply get_insert_eq.
Qed.

Lemma localDelete_out_of_range_witness :
  (0 < 0 ∨ Z.of_nat (visibleLength (characters (newCRDT "s"))) ≤ 0) ∧
  snd (localDelete (newCRDT "s") 0) = None ∧
  characters (fst (localDelete (newCRDT "s") 0)) = characters (newCRDT "s") ∧
  operationHistory (fst (localDelete (newCRDT "s") 0))
    = operationHistory (newCRDT "s") ∧
  get (vc_clock (vectorClock (fst (localDelete (newCRDT "s") 0))))
      (vc_siteId (vectorClock (newCRDT "s")))
    = get (vc_clock (vectorClock (newCRDT "s")))
        (vc_siteId (vectorClock (newCRDT "s"))) + 1.
Proof.
  assert (0 < 0 ∨ Z.of_nat (visibleLength (characters (newCRDT "s"))) ≤ 0)
    as H by (right; by vm_compute).
  split; [exact H|].
  exact (localDelete_out_of_range (newCRDT "s") 0 H).
Defined.

(** ** Which mutators keep the document sorted *)

Section sorted_mutators.
Implicit Types chars : list CRDTCharacter.

Lemma alter_setVisible_sorted v (k : nat) chars :
  sortedDocument chars → sortedDocument (alter (setVisible v) k chars).
Proof.
  unfold sortedDocument. intros H. revert k.
  induction H as [|c rest Hs IH Hall]; intros [|k]; simpl.
  - constructor.
  - constructor.
  - constructor; [done|exact Hall].
  - constructor; [apply IH|]. apply Forall_alter; [done|].
    intros x _ Hx. exact Hx.
Qed.

Lemma insert_as_alter (f : CRDTCharacter → CRDTCharacter) chars (k : nat) c :
  chars !! k = Some c → <[k := f c]> chars = alter f k chars.
Proof.
  revert k. induction chars as [|c' rest IH]; intros [|k] H; simpl in *;
    try done.
  - by inversion H.
  - f_equal. by apply IH.
Qed.

Lemma remoteInsert_sorted (r : CRDT) opClock char :
  sortedDocument (characters r) →
  sortedDocument (characters (remoteInsert r opClock char)).
Proof.
  intros H. rewrite remoteInsert_characters.
  destruct (bool_decide _) eqn:B; [done|].
  apply bool_decide_eq_false in B. by apply insertSorted_sorted.
Qed.

Lemma remoteDelete_sorted (r : CRDT) opClock charId :
  sortedDocument (characters r) →
  sortedDocument (characters (remoteDelete r opClock charId)).
Proof.
  intros H. unfold remoteDelete; simpl.
  destruct (findIndex _ _ _); [|done]. by apply alter_setVisible_sorted.
Qed.

Lemma localDelete_sorted (r : CRDT) position :
  sortedDocument (characters r) →
  sortedDocument (characters (fst (localDelete r position))).
Proof.
  intros H. unfold localDelete.
  destruct (increment (vectorClock r)) as [vc timestamp].
  destruct (length (characters r) <=? getVisiblePosition r position)%nat;
    [done|].
  destruct (characters r !! getVisiblePosition r position) as [c|] eqn:E;
    [|done].
  destruct (char_visible c); [|done]. simpl.
  rewrite (insert_as_alter (setVisible false) _ _ _ E).
  by apply alter_setVisible_sorted.
Qed.
End sorted_mutators.

(** C2. [localInsert] and [garbageCollect] do not keep the sequence in the
    order of [compareCharacters]. A replica of site "s" that types "a" and
    then "b" in front of it holds "b" (clock s:2) before "a" (clock s:1),
    a sorted document no more; and a sorted document whose first record is
    a tombstone comes out of [garbageCollect] with that tombstone moved
    behind the visible record. *)
Theorem localInsert_garbageCollect_break_order :
  let r1 := fst (localInsert (newCRDT "s") 0 "a") in
  let r2 := fst (localInsert r1 0 "b") in
  let d := replay [insertX; insertY; deleteX] (newCRDT "a") in
  sortedDocument (characters r1) ∧
  map char_value (characters r2) = ["b"; "a"] ∧
  ¬ sortedDocument (characters r2) ∧
  sortedDocument (characters d) ∧
  map char_value (characters (garbageCollect d 1000)) = ["y"; "x"] ∧
  ¬ sortedDocument (characters (garbageCollect d 1000)).
Proof.
  repeat split.
  - apply (bool_decide_unpack _). by vm_compute.
  - apply (proj1 (bool_decide_eq_false _)). by vm_compute.
  - apply (bool_decide_unpack _). by vm_compute.
  - apply (proj1 (bool_decide_eq_false _)). by vm_compute.
Qed.

(** C3. With equal clocks and equal sites [compareCharacters] falls back
    on [localeCompare] of the id strings, not on the counters as numbers:
    the record of counter 9 (id "s-9") sorts after the record of counter
    10 (id "s-10"). *)
Theorem compareCharacters_counter_as_string :
  char_id (sampleAt 9) = "s-9" ∧
  char_id (sampleAt 10) = "s-10" ∧
  compareCharacters (sampleAt 9) (sampleAt 10) = 1 ∧
  ¬ char_lt (sampleAt 9) (sampleAt 10).
Proof.
  repeat split. apply (proj1 (bool_decide_eq_false _)). by vm_compute.
Qed.

(** ** Cursor transformation *)

Section cursor.
Implicit Types a b : Clock.

Lemma anyLess_ceq a a' b b' :
  ceq a a' → ceq b b' → anyLess a b = anyLess a' b'.
Proof.
  intros Ha Hb.
  destruct (anyLess a b) eqn:E1, (anyLess a' b') eqn:E2; try done.
  - apply anyLess_true in E1 as [k Hk].
    rewrite (proj2 (anyLess_true a' b')) in E2; [done|].
    exists k. by rewrite <- Ha, <- Hb.
  - apply anyLess_true in E2 as [k Hk].
    rewrite (proj2 (anyLess_true a b)) in E1; [done|].
    exists k. by rewrite Ha, Hb.
Qed.

Lemma compareTo_ceq a a' b : ceq a a' → compareTo a b = compareTo a' b.
Proof.
  intros H. rewrite !compareTo_cases.
  by rewrite (anyLess_ceq a a' b b), (anyLess_ceq b b a a').
Qed.

Lemma comparisonClock_ceq site op :
  ceq (comparisonClock site op) (op_vectorClock op).
Proof.
  intros k. unfold comparisonClock, get, newVectorClock. simpl.
  rewrite lookup_union.
  destruct (op_vectorClock op !! k) as [v|]; simpl.
  - by destruct ({[site := 0]} !! k).
  - destruct (decide (site = k)) as [->|Hne].
    + by rewrite lookup_singleton_eq.
    + by rewrite lookup_singleton_ne.
Qed.

Lemma transformStep_not_after site remote transformed op :
  strictlyAfter remote op = false →
  transformStep site remote transformed op = transformed.
Proof.
  unfold strictlyAfter, transformStep. intros H.
  rewrite (compareTo_ceq _ _ _ (comparisonClock_ceq site op)).
  by rewrite H.
Qed.

Lemma transform_filter site remote (history : list Operation) position :
  foldl (transformStep site remote) position history =
  foldl (transformStep site remote) position
    (List.filter (strictlyAfter remote) history).
Proof.
  revert position. induction history as [|op rest IH]; intros position;
    simpl; [done|].
  destruct (strictlyAfter remote op) eqn:E; simpl.
  - apply IH.
  - rewrite transformStep_not_after by done. apply IH.
Qed.
End cursor.

(** C8 (as amended). The transformed position is never negative, and it
    is computed from the logged operations strictly after the reported
    clock alone: an operation whose clock is concurrent with, equal to or
    before the reported clock leaves it as it is. (There is no upper
    bound by the visible length.) *)
Theorem transformCursorPosition_after_only (se : SyncEngine) (position : Z)
    (remoteVectorClock : Clock) :
  0 ≤ transformCursorPosition se position remoteVectorClock ∧
  transformCursorPosition se position remoteVectorClock =
    Z.max 0
      (foldl (transformStep (siteId (crdt se)) remoteVectorClock) position
         (List.filter (strictlyAfter remoteVectorClock)
            (operationHistory (crdt se)))) ∧
  ((∀ op, op ∈ operationHistory (crdt se) →
      compareTo (op_vectorClock op) remoteVectorClock ≠ Some 1) →
   transformCursorPosition se position remoteVectorClock = Z.max 0 position).
Proof.
  unfold transformCursorPosition. split; [lia|]. split.
  - by rewrite transform_filter.
  - intros H. f_equal. revert position.
    induction (operationHistory (crdt se)) as [|op rest IH]; intros position;
      simpl; [done|].
    rewrite transformStep_not_after.
    + apply IH. intros op' Hin. apply H. by right.
    + apply bool_decide_eq_false. apply H. by left.
Qed.

(** A position reported past the end of the text comes back unchanged,
    above the visible length. *)
Lemma transformCursorPosition_counterexample :
  transformCursorPosition (mkSyncEngine (newCRDT "a") true [] ∅) 5 ∅ = 5 ∧
  visibleLength (characters (newCRDT "a")) = 0%nat ∧
  ¬ (transformCursorPosition (mkSyncEngine (newCRDT "a") true [] ∅) 5 ∅
       ≤ Z.of_nat (visibleLength (characters (newCRDT "a")))).
Proof. repeat split. by vm_compute. Qed.

(** ** Inbound messages *)

Section inbound.
Implicit Types se : SyncEngine.

Lemma applyRemote_siteId (r : CRDT) op : siteId (applyRemote r op) = siteId r.
Proof. unfold applyRemote. by destruct (op_type op). Qed.

(** The id just recorded survives the clean-up. *)
Lemma pruneReceived_keeps_last (received : list (option string)) id :
  id ∉ received → id ∈ pruneReceived (received ++ [id]).
Proof.
  intros Hid. unfold pruneReceived.
  destruct (1000 <? length (received ++ [id]))%nat eqn:E.
  - apply Nat.ltb_lt in E. rewrite length_app in E. simpl in E.
    apply list_elem_of_In, filter_In. split.
    + apply list_elem_of_In, elem_of_app. right. by left.
    + rewrite take_app_le by lia.
      rewrite bool_decide_eq_false_2; [done|].
      intros Hin. apply Hid. by eapply subseteq_take.
  - apply elem_of_app. right. by left.
Qed.

(** What [handleMessage] leaves in the fields the next delivery tests. *)
Lemma handleMessage_fresh now se message :
  msg_siteId message ≠ siteId (crdt se) →
  msg_messageId message ∉ receivedOperations se →
  siteId (crdt (fst (handleMessage now se message))) = siteId (crdt se) ∧
  receivedOperations (fst (handleMessage now se message)) =
    pruneReceived (receivedOperations se ++ [msg_messageId message]).
Proof.
  intros Hsite Hid. unfold handleMessage.
  rewrite decide_False by done. rewrite bool_decide_eq_false_2 by done.
  destruct (msg_type message) as [data|ackId|type]; simpl;
    [|split; reflexivity..].
  destruct (bool_decide _); simpl; [|split; reflexivity].
  by rewrite applyRemote_siteId.
Qed.

Lemma handleMessage_own now se message :
  msg_siteId message = siteId (crdt se) →
  handleMessage now se message = (se, []).
Proof. intros H. unfold handleMessage. by rewrite decide_True. Qed.

Lemma handleMessage_seen now se message :
  msg_messageId message ∈ receivedOperations se →
  handleMessage now se message = (se, []).
Proof.
  intros H. unfold handleMessage. destruct (decide _); [done|].
  by rewrite bool_decide_eq_true_2.
Qed.

Lemma handleMessage_again now1 now2 se message :
  handleMessage now2 (fst (handleMessage now1 se message)) message =
    (fst (handleMessage now1 se message), []).
Proof.
  destruct (decide (msg_siteId message = siteId (crdt se))) as [Hsite|Hsite].
  { rewrite (handleMessage_own now1) by done. simpl.
    by apply handleMessage_own. }
  destruct (decide (msg_messageId message ∈ receivedOperations se))
    as [Hid|Hid].
  { rewrite (handleMessage_seen now1) by done. simpl.
    by apply handleMessage_seen. }
  destruct (handleMessage_fresh now1 se message Hsite Hid) as [Hs Hr].
  apply handleMessage_seen. rewrite Hr.
  by apply pruneReceived_keeps_last.
Qed.

Lemma remoteInsert_again (r : CRDT) opClock char :
  characters (remoteInsert (remoteInsert r opClock char) opClock char) =
    characters (remoteInsert r opClock char).
Proof.
  rewrite (remoteInsert_characters (remoteInsert r opClock char)).
  rewrite bool_decide_eq_true_2; [done|].
  rewrite remoteInsert_characters.
  destruct (bool_decide _) eqn:B.
  - by apply bool_decide_eq_true in B.
  - rewrite insertSorted_Permutation. simpl. by left.
Qed.

(** The gate of [handleMessage] in terms of the two clocks. *)
Lemma gate_open a b :
  bool_decide (compareTo a b = None ∨ compareTo a b = Some (-1)) = anyLess a b.
Proof.
  rewrite compareTo_cases.
  destruct (anyLess a b), (anyLess b a).
  - apply bool_decide_eq_true_2. by left.
  - apply bool_decide_eq_true_2. by right.
  - apply bool_decide_eq_false_2. by intros [|].
  - apply bool_decide_eq_false_2. by intros [|].
Qed.
End inbound.

(** C4 (as amended). An inbound operation message from another site
    whose id is not in the dedup set is applied to the document, reported
    to the remote-operation callback (when one is installed) and answered
    by an Ack of that message id exactly when its vector clock has a
    component strictly above the local clock, that is when the local clock
    is before it or concurrent with it. When the local clock is equal to
    or after the operation's clock, the operation is not applied and no
    Ack is sent: a warning is all that happens. *)
Theorem handleMessage_operation (now : Z) (se : SyncEngine)
    (message : Message) (data : Operation) :
  msg_type message = operation data →
  msg_siteId message ≠ siteId (crdt se) →
  msg_messageId message ∉ receivedOperations se →
  let op := deserializeOperation data in
  let localClock := vc_clock (vectorClock (crdt se)) in
  let result := handleMessage now se message in
  ((∃ k, get localClock k < get (op_vectorClock op) k) →
   crdt (fst result) = applyRemote (crdt se) op ∧
   snd result =
     (if onRemoteOperation se then [RemoteOperation op] else []) ++
     [Broadcast (mkMessage (ack (msg_messageId message)) (siteId (crdt se))
                   (msg_siteId message) now None)]) ∧
  ((∀ k, get (op_vectorClock op) k ≤ get localClock k) →
   crdt (fst result) = crdt se ∧ snd result = [Warn op]).
Proof.
  intros Htype Hsite Hid op localClock result.
  subst op localClock result. unfold handleMessage.
  rewrite decide_False by done. rewrite bool_decide_eq_false_2 by done.
  rewrite Htype, gate_open. split.
  - intros H. apply anyLess_true in H. by rewrite H.
  - intros H. apply anyLess_false in H. by rewrite H.
Qed.

Lemma handleMessage_operation_witness :
  ((∃ k, get (vc_clock (vectorClock (crdt engine0))) k
         < get (op_vectorClock (deserializeOperation insertY)) k) →
   crdt (fst (handleMessage 0 engine0 messageY))
     = applyRemote (crdt engine0) (deserializeOperation insertY) ∧
   snd (handleMessage 0 engine0 messageY) =
     (if onRemoteOperation engine0
      then [RemoteOperation (deserializeOperation insertY)] else []) ++
     [Broadcast (mkMessage (ack (msg_messageId messageY))
                   (siteId (crdt engine0)) (msg_siteId messageY) 0 None)]) ∧
  ((∀ k, get (op_vectorClock (deserializeOperation insertY)) k
         ≤ get (vc_clock (vectorClock (crdt engine0))) k) →
   crdt (fst (handleMessage 0 engine0 messageY)) = crdt engine0 ∧
   snd (handleMessage 0 engine0 messageY)
     = [Warn (deserializeOperation insertY)]).
Proof.
  apply (handleMessage_operation 0 engine0 messageY insertY).
  - reflexivity.
  - simpl. discriminate.
  - simpl. apply not_elem_of_nil.
Defined.

(** The first insert of site "b", delivered after the second: it comes
    from another site, its id is new, and it is neither applied nor
    acknowledged. *)
Lemma handleMessage_counterexample :
  msg_siteId messageX ≠ siteId (crdt engine1) ∧
  (msg_messageId messageX ∉ receivedOperations engine1) ∧
  snd (handleMessage 0 engine1 messageX) = [Warn (deserializeOperation insertX)] ∧
  characters (crdt (fst (handleMessage 0 engine1 messageX))) = [sampleY] ∧
  characters (crdt engine1) = [sampleY].
Proof.
  split; [by vm_compute|]. split.
  - apply (bool_decide_unpack _). by vm_compute.
  - by vm_compute.
Qed.

(** C7. A duplicate delivery has no effect on the document: the second
    [handleMessage] of a message returns the engine as the first one left
    it, with no effect at all, and the second [remoteInsert] of an
    operation leaves the character sequence of the first. *)
Theorem duplicate_delivery (now1 now2 : Z) (se : SyncEngine)
    (message : Message) (r : CRDT) (opClock : Clock) (char : CRDTCharacter) :
  let se1 := fst (handleMessage now1 se message) in
  handleMessage now2 se1 message = (se1, []) ∧
  characters (crdt (fst (handleMessage now2 se1 message)))
    = characters (crdt se1) ∧
  characters (remoteInsert (remoteInsert r opClock char) opClock char)
    = characters (remoteInsert r opClock char).
Proof.
  intros se1. subst se1. rewrite handleMessage_again.
  split; [done|]. split; [done|]. apply remoteInsert_again.
Qed.

(** ** Clocks along a history *)

Section clock_history.
Implicit Types r : CRDT.
Implicit Types vc : VectorClock.

Lemma get_increment vc site :
  get (vc_clock (fst (increment vc))) site =
    if decide (vc_siteId vc = site) then get (vc_clock vc) site + 1
    else get (vc_clock vc) site.
Proof.
  unfold increment; simpl. destruct (decide (vc_siteId vc = site)) as [<-|Hne].
  - apply get_insert_eq.
  - by apply get_insert_ne.
Qed.

Lemma increment_siteId vc : vc_siteId (fst (increment vc)) = vc_siteId vc.
Proof. done. Qed.

Lemma increment_monotone vc site :
  get (vc_clock vc) site ≤ get (vc_clock (fst (increment vc))) site.
Proof. rewrite get_increment. destruct (decide _); lia. Qed.

Lemma localInsert_vectorClock r position value :
  vectorClock (fst (localInsert r position value)) =
    fst (increment (vectorClock r)).
Proof.
  unfold localInsert. destruct (increment (vectorClock r)) as [vc t].
  by destruct (generateId r).
Qed.

Lemma localDelete_vectorClock r position :
  vectorClock (fst (localDelete r position)) = fst (increment (vectorClock r)).
Proof.
  unfold localDelete. destruct (increment (vectorClock r)) as [vc t].
  destruct (length (characters r) <=? getVisiblePosition r position)%nat;
    [done|].
  destruct (characters r !! getVisiblePosition r position) as [c|]; [|done].
  by destruct (char_visible c).
Qed.

Lemma applyRemote_vectorClock r op :
  vectorClock (applyRemote r op) = update (vectorClock r) (op_vectorClock op).
Proof. unfold applyRemote. by destruct (op_type op). Qed.

Lemma act_vectorClock r a :
  vectorClock (fst (act r a)) =
    match a with
    | LocalInsert _ _ | LocalDelete _ => fst (increment (vectorClock r))
    | RemoteOp op => update (vectorClock r) (op_vectorClock op)
    | Collect _ => vectorClock r
    end.
Proof.
  destruct a as [position value|position|op|keepRecent]; unfold act.
  - pose proof (localInsert_vectorClock r position value) as H.
    by destruct (localInsert r position value).
  - pose proof (localDelete_vectorClock r position) as H.
    by destruct (localDelete r position).
  - apply applyRemote_vectorClock.
  - done.
Qed.

Lemma act_clock_monotone r a site :
  get (vc_clock (vectorClock r)) site
    ≤ get (vc_clock (vectorClock (fst (act r a)))) site.
Proof.
  rewrite act_vectorClock. destruct a.
  - apply increment_monotone.
  - apply increment_monotone.
  - apply update_monotone.
  - lia.
Qed.

Lemma run_cons r a actions :
  run r (a :: actions) =
    (fst (run (fst (act r a)) actions),
     snd (act r a) ++ snd (run (fst (act r a)) actions)).
Proof.
  simpl. destruct (act r a) as [r1 ops1]. simpl.
  by destruct (run r1 actions).
Qed.

Lemma update_siteId vc otherClock :
  vc_siteId (update vc otherClock) = vc_siteId vc.
Proof. done. Qed.

Lemma act_clock_siteId r a :
  vc_siteId (vectorClock (fst (act r a))) = vc_siteId (vectorClock r).
Proof. rewrite act_vectorClock. by destruct a. Qed.

Lemma nonNegative_update vc otherClock :
  nonNegative (vc_clock vc) → nonNegative (vc_clock (update vc otherClock)).
Proof.
  intros H k. pose proof (update_monotone vc otherClock k). specialize (H k). lia.
Qed.

Lemma update_dominates vc otherClock site :
  nonNegative (vc_clock vc) →
  get otherClock site ≤ get (vc_clock (update vc otherClock)) site.
Proof.
  intros H. rewrite get_update. unfold get at 1.
  destruct (otherClock !! site) as [t|]; simpl; [lia|apply H].
Qed.
End clock_history.

(** X1. Along any history of a replica (local inserts and deletes, remote
    operations, garbage collections) no component of its vector clock ever
    decreases. *)
Theorem run_clock_monotone (r : CRDT) (actions : list Action) (site : string) :
  get (vc_clock (vectorClock r)) site
    ≤ get (vc_clock (vectorClock (fst (run r actions)))) site.
Proof.
  revert r. induction actions as [|a actions IH]; intros r.
  - simpl. lia.
  - rewrite run_cons. simpl.
    pose proof (act_clock_monotone r a site).
    specialize (IH (fst (act r a))). lia.
Qed.

(** X2. A local insert and a local delete each raise the local component
    of the clock by exactly one and leave the other components alone; the
    operation of a local insert carries that new clock, which is also the
    origin clock of its record, and the new local component as timestamp. *)
Theorem local_edit_clock (r : CRDT) (position : Z) (value : string)
    (site : string) :
  let local := vc_siteId (vectorClock r) in
  let before := vc_clock (vectorClock r) in
  let ri := fst (localInsert r position value) in
  let op := snd (localInsert r position value) in
  let rd := fst (localDelete r position) in
  get (vc_clock (vectorClock ri)) local = get before local + 1 ∧
  get (vc_clock (vectorClock rd)) local = get before local + 1 ∧
  (site ≠ local →
   get (vc_clock (vectorClock ri)) site = get before site ∧
   get (vc_clock (vectorClock rd)) site = get before site) ∧
  op_vectorClock op = vc_clock (vectorClock ri) ∧
  op_timestamp op = get before local + 1 ∧
  ∃ char, op_type op = Insert char ∧
          char_vectorClock char = vc_clock (vectorClock ri).
Proof.
  intros local before ri op rd. subst local before ri op rd.
  rewrite localInsert_vectorClock, localDelete_vectorClock, !get_increment.
  rewrite decide_True by done.
  split; [done|]. split; [done|]. split.
  { intros Hne. by rewrite decide_False. }
  unfold localInsert, increment. destruct (generateId r) as [id r1]. simpl.
  split; [done|]. split; [done|]. eauto.
Qed.

Lemma local_edit_clock_witness :
  "b" ≠ vc_siteId (vectorClock (newCRDT "s")) ∧
  get (vc_clock (vectorClock (fst (localInsert (newCRDT "s") 0 "a")))) "b"
    = get (vc_clock (vectorClock (newCRDT "s"))) "b" ∧
  get (vc_clock (vectorClock (fst (localDelete (newCRDT "s") 0)))) "b"
    = get (vc_clock (vectorClock (newCRDT "s"))) "b".
Proof.
  assert ("b" ≠ vc_siteId (vectorClock (newCRDT "s"))) as H by done.
  split; [exact H|].
  exact (proj1 (proj2 (proj2 (local_edit_clock (newCRDT "s") 0 "a" "b"))) H).
Defined.

(** X3. [update] takes the componentwise maximum on the keys of the other
    clock and leaves the other components alone; it is idempotent, and on
    a clock without negative components the result dominates the other
    clock at every site. *)
Theorem update_componentwise_max (vc : VectorClock) (otherClock : Clock)
    (site : string) :
  get (vc_clock (update vc otherClock)) site =
    match otherClock !! site with
    | Some theirs => Z.max (get (vc_clock vc) site) theirs
    | None => get (vc_clock vc) site
    end ∧
  get (vc_clock (update (update vc otherClock) otherClock)) site =
    get (vc_clock (update vc otherClock)) site ∧
  (nonNegative (vc_clock vc) →
   get otherClock site ≤ get (vc_clock (update vc otherClock)) site).
Proof.
  split; [apply get_update|]. split; [|apply update_dominates].
  rewrite !get_update. destruct (otherClock !! site); lia.
Qed.

Lemma update_componentwise_max_witness :
  nonNegative (vc_clock (newVectorClock "a")) ∧
  get {[ "b" := 2 ]} "b"
    ≤ get (vc_clock (update (newVectorClock "a") {[ "b" := 2 ]})) "b".
Proof.
  assert (nonNegative (vc_clock (newVectorClock "a"))) as H.
  { intros k. unfold get, newVectorClock; simpl.
    destruct (decide ("a" = k)) as [<-|Hne].
    - by rewrite lookup_singleton_eq.
    - by rewrite lookup_singleton_ne. }
  split; [exact H|].
  exact (proj2 (proj2 (update_componentwise_max (newVectorClock "a")
                         {[ "b" := 2 ]} "b")) H).
Defined.

(** ** Position transformation *)

Section transform_position.
Implicit Types ops : list Operation.

Lemma transformPosition_step_bounds transformed op :
  transformed - 1 ≤ transformPosition_step transformed op ≤ transformed + 1 ∧
  (match op_type op with
   | Insert _ => transformed ≤ transformPosition_step transformed op
   | Delete _ => transformPosition_step transformed op ≤ transformed
   end).
Proof.
  unfold transformPosition_step. destruct (op_type op).
  - destruct (op_position op <=? transformed); lia.
  - destruct (op_position op <? transformed); lia.
Qed.

Lemma insertedChars_cons op ops :
  insertedChars (op :: ops) =
    match op_type op with
    | Insert char => char :: insertedChars ops
    | Delete _ => insertedChars ops
    end.
Proof.
  unfold insertedChars. simpl. unfold insertedChar at 1.
  by destruct (op_type op).
Qed.

Lemma deletedIds_cons op ops :
  deletedIds (op :: ops) =
    match op_type op with
    | Insert _ => deletedIds ops
    | Delete charId => charId :: deletedIds ops
    end.
Proof.
  unfold deletedIds. simpl. unfold deletedId at 1.
  by destruct (op_type op).
Qed.

Lemma foldl_transformPosition_bounds ops position :
  position - Z.of_nat (length (deletedIds ops))
    ≤ foldl transformPosition_step position ops
    ≤ position + Z.of_nat (length (insertedChars ops)).
Proof.
  revert position. induction ops as [|op ops IH]; intros position.
  - simpl. lia.
  - cbn [foldl]. specialize (IH (transformPosition_step position op)).
    pose proof (transformPosition_step_bounds position op) as [Hb Hm].
    rewrite insertedChars_cons, deletedIds_cons.
    destruct (op_type op); simpl length; lia.
Qed.

Lemma transformStep_after site remote transformed op :
  strictlyAfter remote op = true →
  transformStep site remote transformed op
    = transformPosition_step transformed op.
Proof.
  unfold strictlyAfter, transformStep, transformPosition_step. intros H.
  rewrite (compareTo_ceq _ _ _ (comparisonClock_ceq site op)).
  by rewrite H.
Qed.

Lemma foldl_transformStep_after site remote ops position :
  Forall (λ op, strictlyAfter remote op = true) ops →
  foldl (transformStep site remote) position ops
    = foldl transformPosition_step position ops.
Proof.
  intros H. revert position. induction H as [|op ops Hop _ IH];
    intros position; [done|].
  cbn [foldl]. by rewrite transformStep_after, IH.
Qed.

Lemma Forall_filter_true {A} (f : A → bool) (l : list A) :
  Forall (λ x, f x = true) (List.filter f l).
Proof.
  apply Forall_forall. intros x Hx.
  apply list_elem_of_In, filter_In in Hx. tauto.
Qed.
End transform_position.

(** X4. [transformPosition] never returns a negative position, moves the
    position down by at most the number of deletes and up by at most the
    number of inserts among the operations, and returns the position
    itself (cut at 0) for an empty list. *)
Theorem transformPosition_bounds (position : Z) (operations : list Operation) :
  0 ≤ transformPosition position operations ∧
  position - Z.of_nat (length (deletedIds operations))
    ≤ transformPosition position operations ∧
  transformPosition position operations
    ≤ Z.max 0 (position + Z.of_nat (length (insertedChars operations))) ∧
  transformPosition position [] = Z.max 0 position.
Proof.
  unfold transformPosition.
  pose proof (foldl_transformPosition_bounds operations position).
  repeat split; lia.
Qed.

(** X5. The cursor transformation of the sync engine is the position
    transformation of the document applied to the logged operations that
    are strictly after the reported clock, in log order. *)
Theorem transformCursorPosition_as_transformPosition (se : SyncEngine)
    (position : Z) (remoteVectorClock : Clock) :
  transformCursorPosition se position remoteVectorClock =
    transformPosition position
      (List.filter (strictlyAfter remoteVectorClock)
         (operationHistory (crdt se))).
Proof.
  unfold transformCursorPosition, transformPosition.
  rewrite transform_filter, foldl_transformStep_after; [done|].
  apply Forall_filter_true.
Qed.

(** ** Counting and collecting *)

Section collecting.
Implicit Types chars : list CRDTCharacter.

Lemma filter_nil_of_false {A} (f : A → bool) (l : list A) :
  (∀ x, x ∈ l → f x = false) → List.filter f l = [].
Proof.
  induction l as [|x l IH]; intros H; simpl; [done|].
  rewrite (H x) by (by left). apply IH. intros y Hy. apply H. by right.
Qed.

Lemma filter_idem {A} (f : A → bool) (l : list A) :
  List.filter f (List.filter f l) = List.filter f l.
Proof.
  induction l as [|x l IH]; simpl; [done|].
  destruct (f x) eqn:E; simpl; [|done]. by rewrite E, IH.
Qed.

Lemma filter_visible_tombstones chars :
  List.filter char_visible
    (List.filter (λ c, negb (char_visible c)) chars) = [].
Proof.
  apply filter_nil_of_false. intros c Hc.
  apply list_elem_of_In, filter_In in Hc as [_ Hc].
  by destruct (char_visible c).
Qed.

Lemma filter_tombstones_visible chars :
  List.filter (λ c, negb (char_visible c))
    (List.filter char_visible chars) = [].
Proof.
  apply filter_nil_of_false. intros c Hc.
  apply list_elem_of_In, filter_In in Hc as [_ Hc]. by rewrite Hc.
Qed.

Lemma filter_partition_length chars :
  length chars =
    (length (List.filter char_visible chars) +
     length (List.filter (λ c, negb (char_visible c)) chars))%nat.
Proof.
  induction chars as [|c chars IH]; simpl; [done|].
  destruct (char_visible c); simpl; lia.
Qed.

Lemma filter_partition_Permutation chars :
  List.filter char_visible chars ++
  List.filter (λ c, negb (char_visible c)) chars ≡ₚ chars.
Proof.
  induction chars as [|c chars IH]; simpl; [done|].
  destruct (char_visible c); simpl.
  - by rewrite IH.
  - rewrite <- Permutation_middle. by rewrite IH.
Qed.

Lemma sliceLast_length {A} (n : nat) (l : list A) :
  length (sliceLast n l) =
    if decide (n = 0%nat) then length l else Nat.min n (length l).
Proof.
  destruct n as [|n]; [done|].
  unfold sliceLast. rewrite length_drop.
  destruct (decide (S n = 0%nat)); lia.
Qed.

Lemma sliceLast_sublist {A} (n : nat) (l : list A) :
  sliceLast n l `sublist_of` l.
Proof. destruct n; simpl; [done|]. apply sublist_drop. Qed.

Lemma sliceLast_filter_tombstones n chars :
  List.filter (λ c, negb (char_visible c))
    (sliceLast n (List.filter (λ c, negb (char_visible c)) chars))
  = sliceLast n (List.filter (λ c, negb (char_visible c)) chars).
Proof.
  set (tombs := List.filter (λ c, negb (char_visible c)) chars).
  assert (∀ l, (∀ x, x ∈ l → x ∈ tombs) →
               List.filter (λ c, negb (char_visible c)) l = l) as Hall.
  { induction l as [|x l IH]; intros H; simpl; [done|].
    assert (x ∈ tombs) as Hx by (apply H; by left).
    apply list_elem_of_In, filter_In in Hx as [_ Hx]. rewrite Hx.
    f_equal. apply IH. intros y Hy. apply H. by right. }
  apply Hall. intros x Hx.
  eapply sublist_subseteq; [apply sliceLast_sublist|done].
Qed.
End collecting.

(** X6. [getState] counts every record once: the character count is the
    visible count plus the tombstone count, and the visible count is the
    number of records [getText] joins. *)
Theorem getState_counts (r : CRDT) :
  st_characterCount (getState r)
    = (st_visibleCount (getState r) + st_tombstoneCount (getState r))%nat ∧
  st_visibleCount (getState r) = length (visibleValues r) ∧
  st_operations (getState r) = length (operationHistory r).
Proof.
  unfold getState, visibleValues, visibleChars; simpl.
  split; [apply filter_partition_length|].
  by rewrite length_map.
Qed.

(** X7. [garbageCollect(keepRecent)] keeps every visible record, in
    order, so the text is unchanged; of the tombstones it keeps the last
    [keepRecent], and all of them when [keepRecent] is 0, [slice(-0)]
    being the whole array; clock, counter and log are untouched. *)
Theorem garbageCollect_keeps_text (r : CRDT) (keepRecent : nat) :
  let r' := garbageCollect r keepRecent in
  let tombstones := List.filter (λ c, negb (char_visible c)) (characters r) in
  visibleChars r' = visibleChars r ∧
  getText r' = getText r ∧
  List.filter (λ c, negb (char_visible c)) (characters r')
    = sliceLast keepRecent tombstones ∧
  st_tombstoneCount (getState r')
    = (if decide (keepRecent = 0%nat) then length tombstones
       else Nat.min keepRecent (length tombstones)) ∧
  vectorClock r' = vectorClock r ∧
  counter r' = counter r ∧
  operationHistory r' = operationHistory r.
Proof.
  intros r' tombstones. subst r' tombstones.
  assert (List.filter char_visible (characters (garbageCollect r keepRecent))
          = List.filter char_visible (characters r)) as Hvis.
  { unfold garbageCollect; simpl. rewrite List.filter_app, filter_idem.
    rewrite (filter_nil_of_false char_visible (sliceLast _ _)).
    - by rewrite app_nil_r.
    - intros c Hc.
      apply (sublist_subseteq _ _ (sliceLast_sublist _ _)) in Hc.
      apply list_elem_of_In, filter_In in Hc as [_ Hc].
      by destruct (char_visible c). }
  assert (List.filter (λ c, negb (char_visible c))
            (characters (garbageCollect r keepRecent))
          = sliceLast keepRecent
              (List.filter (λ c, negb (char_visible c)) (characters r)))
    as Htomb.
  { unfold garbageCollect; simpl.
    by rewrite List.filter_app, filter_tombstones_visible,
      sliceLast_filter_tombstones. }
  split; [exact Hvis|]. split; [unfold getText; by rewrite Hvis|].
  split; [exact Htomb|]. split; [|done].
  unfold getState; simpl. fold (visibleChars r).
  change (length (List.filter (λ c, negb (char_visible c))
            (characters (garbageCollect r keepRecent)))
          = if decide (keepRecent = 0%nat)
            then length (List.filter (λ c, negb (char_visible c)) (characters r))
            else Nat.min keepRecent
                   (length (List.filter (λ c, negb (char_visible c))
                              (characters r)))).
  rewrite Htomb. apply sliceLast_length.
Qed.

(** ** What the mutators keep *)

Section kept_records.
Implicit Types chars : list CRDTCharacter.
Implicit Types c : CRDTCharacter.

Lemma setVisible_tombstone c : char_visible c = false → setVisible false c = c.
Proof. destruct c as [v i s k b]. simpl. by intros ->. Qed.

Lemma elem_of_splice {A} (k : nat) (x y : A) (l : list A) :
  y ∈ l → y ∈ splice k x l.
Proof.
  intros H. unfold splice. rewrite <- (take_drop k l) in H.
  apply elem_of_app in H as [H|H]; apply elem_of_app; [by left|].
  right. by right.
Qed.

(** A record of the list is still there after one flag has been cleared:
    itself, or itself as a tombstone. *)
Lemma elem_of_alter_setVisible (k : nat) c chars :
  c ∈ chars →
  c ∈ alter (setVisible false) k chars ∨
  (char_visible c = true ∧
   setVisible false c ∈ alter (setVisible false) k chars).
Proof.
  intros H. apply list_elem_of_lookup in H as [i Hi].
  destruct (decide (k = i)) as [->|Hne].
  - destruct (char_visible c) eqn:V.
    + right. split; [done|]. apply list_elem_of_lookup. exists i.
      by rewrite list_lookup_alter_eq, Hi.
    + left. apply list_elem_of_lookup. exists i.
      rewrite list_lookup_alter_eq, Hi. simpl.
      by rewrite setVisible_tombstone.
  - left. apply list_elem_of_lookup. exists i.
    by rewrite list_lookup_alter_ne.
Qed.

Lemma localInsert_characters (r : CRDT) position value :
  characters (fst (localInsert r position value)) =
    splice (getVisiblePosition r position)
      (newCRDTCharacter value (fst (generateId r)) (siteId r)
         (getCopy (fst (increment (vectorClock r)))))
      (characters r).
Proof. unfold localInsert, increment, generateId. done. Qed.

Lemma localDelete_characters (r : CRDT) position :
  characters (fst (localDelete r position)) = characters r ∨
  characters (fst (localDelete r position)) =
    alter (setVisible false) (getVisiblePosition r position) (characters r).
Proof.
  unfold localDelete. destruct (increment (vectorClock r)) as [vc t].
  destruct (length (characters r) <=? getVisiblePosition r position)%nat;
    [by left|].
  destruct (characters r !! getVisiblePosition r position) as [c|] eqn:E;
    [|by left].
  destruct (char_visible c); [|by left]. right. simpl.
  by apply insert_as_alter.
Qed.

Lemma applyRemote_characters (r : CRDT) op :
  characters (applyRemote r op) = characters r ∨
  (∃ char, op_type op = Insert char ∧
           characters (applyRemote r op) = insertSorted char (characters r)) ∨
  (∃ k : nat, characters (applyRemote r op)
              = alter (setVisible false) k (characters r)).
Proof.
  unfold applyRemote. destruct (op_type op) as [char|charId].
  - rewrite remoteInsert_characters. destruct (bool_decide _); [by left|].
    right. left. eauto.
  - unfold remoteDelete; simpl.
    destruct (findIndex _ _ _) as [k|]; [|by left]. right. right. eauto.
Qed.

Lemma map_id_alter_setVisible v (k : nat) chars :
  map char_id (alter (setVisible v) k chars) = map char_id chars.
Proof.
  revert k. induction chars as [|c chars IH]; intros [|k]; simpl; try done.
  f_equal. apply IH.
Qed.
End kept_records.

(** X8. Tombstones are permanent and records are never dropped by an
    edit: a record of the document is still in it after a local insert, a
    local delete or a remote operation, unchanged or with its visible flag
    cleared; a tombstone is still in it unchanged. *)
Theorem edits_keep_records (r : CRDT) (c : CRDTCharacter) (position : Z)
    (value : string) (op : Operation) :
  c ∈ characters r →
  let stays (r' : CRDT) :=
    (c ∈ characters r' ∨
     (char_visible c = true ∧ setVisible false c ∈ characters r')) ∧
    (char_visible c = false → c ∈ characters r') in
  stays (fst (localInsert r position value)) ∧
  stays (fst (localDelete r position)) ∧
  stays (applyRemote r op).
Proof.
  intros Hc stays.
  assert (∀ r', (c ∈ characters r' ∨
                 (char_visible c = true ∧ setVisible false c ∈ characters r'))
                → stays r') as Hstays.
  { intros r' H. split; [done|]. intros V.
    destruct H as [H|[H _]]; [done|congruence]. }
  split; [|split]; apply Hstays.
  - left. rewrite localInsert_characters. by apply elem_of_splice.
  - destruct (localDelete_characters r position) as [-> | ->]; [by left|].
    by apply elem_of_alter_setVisible.
  - destruct (applyRemote_characters r op)
      as [-> | [(char & _ & ->) | (k & ->)]].
    + by left.
    + left. rewrite insertSorted_Permutation. by right.
    + by apply elem_of_alter_setVisible.
Qed.

Lemma edits_keep_records_witness :
  sampleX ∈ characters (applyRemote (newCRDT "a") insertX) ∧
  (char_visible sampleX = false →
   sampleX ∈ characters
     (applyRemote (applyRemote (newCRDT "a") insertX) deleteX)).
Proof.
  assert (sampleX ∈ characters (applyRemote (newCRDT "a") insertX)) as H
    by (vm_compute; by left).
  split; [exact H|].
  exact (proj2 (proj2 (proj2
    (edits_keep_records (applyRemote (newCRDT "a") insertX) sampleX 0 "z"
       deleteX H)))).
Defined.

(** X9. Unique identity is kept by everything that comes from outside or
    removes: if no two records share an id, none do after a remote insert
    or delete, a local delete or a garbage collection. *)
Theorem unique_ids_kept (r : CRDT) (op : Operation) (position : Z)
    (keepRecent : nat) :
  NoDup (map char_id (characters r)) →
  NoDup (map char_id (characters (applyRemote r op))) ∧
  NoDup (map char_id (characters (fst (localDelete r position)))) ∧
  NoDup (map char_id (characters (garbageCollect r keepRecent))).
Proof.
  intros Hnd. split; [|split].
  - unfold applyRemote. destruct (op_type op) as [char|charId].
    + rewrite remoteInsert_characters.
      destruct (bool_decide _) eqn:B; [done|].
      apply bool_decide_eq_false in B.
      rewrite insertSorted_Permutation. simpl. by apply NoDup_cons.
    + unfold remoteDelete; simpl.
      destruct (findIndex _ _ _) as [k|]; [|done].
      by rewrite map_id_alter_setVisible.
  - destruct (localDelete_characters r position) as [-> | ->]; [done|].
    by rewrite map_id_alter_setVisible.
  - unfold garbageCollect; simpl.
    apply (sublist_NoDup _
             (map char_id
                (List.filter char_visible (characters r) ++
                 List.filter (λ c, negb (char_visible c)) (characters r)))).
    + by rewrite filter_partition_Permutation.
    + apply (fmap_sublist char_id). apply sublist_app; [done|].
      apply sliceLast_sublist.
Qed.

Lemma unique_ids_kept_witness :
  NoDup (map char_id (characters (applyRemote (newCRDT "a") insertX))) ∧
  NoDup (map char_id
           (characters (applyRemote (applyRemote (newCRDT "a") insertX)
                          insertY))).
Proof.
  assert (NoDup (map char_id (characters (applyRemote (newCRDT "a") insertX))))
    as H by (apply (bool_decide_unpack _); by vm_compute).
  split; [exact H|].
  exact (proj1 (unique_ids_kept (applyRemote (newCRDT "a") insertX) insertY
                  0 0 H)).
Defined.

(** ** Ids of the records a replica creates *)

Section local_ids.
Implicit Types r : CRDT.

Lemma decimal_inj n m : decimal n = decimal m → n = m.
Proof.
  unfold decimal. intros H.
  assert (∀ k, ∃ d, NilZero.uint_of_string
                      (NilZero.string_of_uint (Nat.to_uint k)) = Some d
                    ∧ Nat.of_uint d = k) as Hparse.
  { intros k. destruct (Nat.to_uint k) as [| | | | | | | | | |] eqn:E;
      try (eexists; split; [apply NilZero.usu; discriminate|];
           rewrite <- E; apply DecimalNat.Unsigned.of_to).
    exists Decimal.zero. split; [done|].
    rewrite <- (DecimalNat.Unsigned.of_to k), E. done. }
  destruct (Hparse n) as (dn & Hn & <-). destruct (Hparse m) as (dm & Hm & <-).
  rewrite H in Hn. congruence.
Qed.

(** [`${site}-${n}`] *)
Lemma generateId_inj site n m :
  site +:+ "-" +:+ decimal n = site +:+ "-" +:+ decimal m → n = m.
Proof.
  intros H. apply decimal_inj.
  by apply (inj (String.app "-")), (inj (String.app site)).
Qed.

Lemma act_siteId r a : siteId (fst (act r a)) = siteId r.
Proof.
  destruct a as [position value|position|op|keepRecent]; unfold act.
  - unfold localInsert. destruct (increment _). by destruct (generateId r).
  - unfold localDelete. destruct (increment _).
    destruct (_ <=? _)%nat; [done|]. destruct (_ !! _) as [c|]; [|done].
    by destruct (char_visible c).
  - apply applyRemote_siteId.
  - done.
Qed.

Lemma act_counter r a :
  counter (fst (act r a)) =
    match a with
    | LocalInsert _ _ => S (counter r)
    | _ => counter r
    end.
Proof.
  destruct a as [position value|position|op|keepRecent]; unfold act.
  - unfold localInsert. destruct (increment _). done.
  - unfold localDelete. destruct (increment _).
    destruct (_ <=? _)%nat; [done|]. destruct (_ !! _) as [c|]; [|done].
    by destruct (char_visible c).
  - unfold applyRemote. by destruct (op_type op).
  - done.
Qed.

Lemma act_inserted_ids r a :
  map char_id (insertedChars (snd (act r a))) =
    match a with
    | LocalInsert _ _ => [siteId r +:+ "-" +:+ decimal (counter r)]
    | _ => []
    end.
Proof.
  destruct a as [position value|position|op|keepRecent]; unfold act.
  - unfold localInsert. destruct (increment _). done.
  - unfold localDelete. destruct (increment _).
    destruct (_ <=? _)%nat; [done|]. destruct (_ !! _) as [c|]; [|done].
    by destruct (char_visible c).
  - done.
  - done.
Qed.

Lemma run_counter_le r actions : (counter r ≤ counter (fst (run r actions)))%nat.
Proof.
  revert r. induction actions as [|a actions IH]; intros r; [done|].
  rewrite run_cons. simpl. specialize (IH (fst (act r a))).
  rewrite act_counter in IH. destruct a; lia.
Qed.
End local_ids.

(** X10. Unique identity of what a replica creates: along any history,
    the records made by its local inserts carry, in order, the ids
    [site-n] for the successive values [n] of its counter, which only
    local inserts advance; these ids are pairwise different. *)
Theorem run_local_ids (r : CRDT) (actions : list Action) :
  let r' := fst (run r actions) in
  let created := insertedChars (snd (run r actions)) in
  siteId r' = siteId r ∧
  map char_id created =
    map (λ n, siteId r +:+ "-" +:+ decimal n)
      (seq (counter r) (counter r' - counter r)) ∧
  NoDup (map char_id created).
Proof.
  intros r' created. subst r' created.
  assert (siteId (fst (run r actions)) = siteId r ∧
          map char_id (insertedChars (snd (run r actions))) =
            map (λ n, siteId r +:+ "-" +:+ decimal n)
              (seq (counter r) (counter (fst (run r actions)) - counter r)))
    as [Hs Hids].
  { revert r. induction actions as [|a actions IH]; intros r.
    - simpl. by rewrite Nat.sub_diag.
    - rewrite run_cons. simpl.
      destruct (IH (fst (act r a))) as [IHs IHids].
      split; [by rewrite IHs, act_siteId|].
      unfold insertedChars in *. rewrite omap_app, map_app.
      fold (insertedChars (snd (act r a))).
      rewrite act_inserted_ids, IHids, act_siteId, act_counter.
      pose proof (run_counter_le (fst (act r a)) actions) as Hle.
      rewrite act_counter in Hle.
      destruct a as [position value|position|op|keepRecent]; try done.
      replace (counter (fst (run (fst (act r (LocalInsert position value)))
                              actions)) - counter r)%nat
        with (S (counter (fst (run (fst (act r (LocalInsert position value)))
                                 actions)) - S (counter r))) by lia.
      done. }
  split; [done|]. split; [done|]. rewrite Hids.
  apply NoDup_fmap_2_strong; [|apply NoDup_seq].
  intros n m _ _. apply generateId_inj.
Qed.

(** ** Local edits and the visible text *)

Section visible_text.
Implicit Types chars : list CRDTCharacter.
Implicit Types r : CRDT.

(** In range, the scan stops on the visible record of that visible
    index. *)
Lemma getVisiblePosition_from_in_range chars i visibleCount index :
  visibleCount ≤ index < visibleCount + Z.of_nat (visibleLength chars) →
  ∃ (k : nat) c,
    getVisiblePosition_from chars i visibleCount index = (i + k)%nat ∧
    chars !! k = Some c ∧
    char_visible c = true ∧
    Z.of_nat (visibleLength (take k chars)) = index - visibleCount.
Proof.
  revert i visibleCount. induction chars as [|c rest IH];
    intros i visibleCount Hin.
  - unfold visibleLength in Hin. simpl in Hin. lia.
  - rewrite visibleLength_cons in Hin. simpl.
    destruct (char_visible c) eqn:V.
    + destruct (visibleCount =? index) eqn:E.
      * apply Z.eqb_eq in E. exists 0%nat, c.
        unfold visibleLength. simpl. repeat split; [lia|done|lia].
      * apply Z.eqb_neq in E.
        destruct (IH (S i) (visibleCount + 1)) as (k & c' & Hk & Hc & Hv & Hl);
          [lia|].
        exists (S k), c'. rewrite Hk. simpl. rewrite visibleLength_cons, V.
        repeat split; [lia|done|done|lia].
    + destruct (IH (S i) visibleCount) as (k & c' & Hk & Hc & Hv & Hl); [lia|].
      exists (S k), c'. rewrite Hk. simpl. rewrite visibleLength_cons, V.
      repeat split; [lia|done|done|lia].
Qed.

Lemma filter_take_drop {A} (f : A → bool) (k : nat) (l : list A) :
  List.filter f (take k l)
    = take (length (List.filter f (take k l))) (List.filter f l) ∧
  List.filter f (drop k l)
    = drop (length (List.filter f (take k l))) (List.filter f l).
Proof.
  assert (List.filter f l
          = List.filter f (take k l) ++ List.filter f (drop k l)) as H
    by (rewrite <- List.filter_app; by rewrite take_drop).
  rewrite H. by rewrite take_app_length, drop_app_length.
Qed.

Lemma visibleChars_splice r (k : nat) c :
  char_visible c = true →
  List.filter char_visible (splice k c (characters r)) =
    splice (visibleLength (take k (characters r))) c (visibleChars r).
Proof.
  intros V. unfold splice, visibleChars, visibleLength.
  rewrite List.filter_app. simpl. rewrite V.
  destruct (filter_take_drop char_visible k (characters r)) as [H1 H2].
  by rewrite <- H1, <- H2.
Qed.

(** A local insert on the visible records. *)
Lemma localInsert_visibleChars r position value :
  0 ≤ position →
  ∃ c, char_value c = value ∧ char_visible c = true ∧
    visibleChars (fst (localInsert r position value)) =
      splice (Z.to_nat (Z.min position (Z.of_nat (length (visibleChars r)))))
        c (visibleChars r).
Proof.
  intros Hpos. eexists. split; [|split]; [| |].
  3:{ unfold visibleChars at 1. rewrite localInsert_characters.
      rewrite visibleChars_splice by done.
      unfold getVisiblePosition.
      destruct (getVisiblePosition_from_spec (characters r) 0 0 position Hpos)
        as (k & Hk & _ & Hvis & _).
      rewrite Hk. simpl.
      assert (visibleLength (take k (characters r))
              = Z.to_nat (Z.min position (Z.of_nat (length (visibleChars r)))))
        as ->; [|done].
      unfold visibleChars. unfold visibleLength in *. lia. }
  - done.
  - done.
Qed.

(** A local delete inside the visible text. *)
Lemma localDelete_in_range r position :
  0 ≤ position < Z.of_nat (length (visibleChars r)) →
  ∃ (k : nat) c,
    characters r !! k = Some c ∧
    char_visible c = true ∧
    visibleChars r !! Z.to_nat position = Some c ∧
    localDelete r position =
      (mkCRDT (siteId r) (fst (increment (vectorClock r)))
         (<[k := setVisible false c]> (characters r))
         (counter r)
         (operationHistory r ++
          [mkOperation (Delete (char_id c)) (Z.of_nat k)
             (snd (increment (vectorClock r)))
             (getCopy (fst (increment (vectorClock r))))]),
       Some (mkOperation (Delete (char_id c)) (Z.of_nat k)
               (snd (increment (vectorClock r)))
               (getCopy (fst (increment (vectorClock r)))))) ∧
    visibleChars (fst (localDelete r position)) =
      take (Z.to_nat position) (visibleChars r) ++
      drop (S (Z.to_nat position)) (visibleChars r).
Proof.
  intros Hin.
  destruct (getVisiblePosition_from_in_range (characters r) 0 0 position)
    as (k & c & Hk & Hc & Hv & Hl).
  { unfold visibleLength. unfold visibleChars in Hin. lia. }
  simpl in Hk. exists k, c.
  assert (k < length (characters r))%nat as Hlt.
  { apply lookup_lt_is_Some. eauto. }
  assert (localDelete r position =
      (mkCRDT (siteId r) (fst (increment (vectorClock r)))
         (<[k := setVisible false c]> (characters r))
         (counter r)
         (operationHistory r ++
          [mkOperation (Delete (char_id c)) (Z.of_nat k)
             (snd (increment (vectorClock r)))
             (getCopy (fst (increment (vectorClock r))))]),
       Some (mkOperation (Delete (char_id c)) (Z.of_nat k)
               (snd (increment (vectorClock r)))
               (getCopy (fst (increment (vectorClock r))))))) as Hdel.
  { unfold localDelete, getVisiblePosition. rewrite Hk.
    unfold increment at 1. 
    rewrite (proj2 (Nat.leb_gt _ _)) by lia. by rewrite Hc, Hv. }
  assert (length (List.filter char_visible (take k (characters r)))
          = Z.to_nat position) as Hp.
  { unfold visibleLength in Hl. lia. }
  assert (visibleChars r =
            List.filter char_visible (take k (characters r)) ++
            c :: List.filter char_visible (drop (S k) (characters r))) as Hvc.
  { unfold visibleChars. rewrite <- (take_drop_middle _ _ _ Hc) at 1.
    rewrite List.filter_app. simpl. by rewrite Hv. }
  split; [done|]. split; [done|]. split; [|split; [done|]].
  - rewrite Hvc. by apply list_lookup_middle.
  - rewrite Hdel. unfold visibleChars at 1. simpl.
    rewrite insert_take_drop by done. rewrite List.filter_app. simpl.
    rewrite Hvc, (take_app_length' _ _ _ (eq_sym Hp)).
    rewrite (cons_middle c), app_assoc.
    rewrite drop_app_length'; [done|].
    rewrite length_app. simpl. lia.
Qed.
End visible_text.

Section local_insert_values.
Implicit Types r : CRDT.

Lemma localInsert_visibleValues r position value :
  0 ≤ position →
  visibleValues (fst (localInsert r position value)) =
    take (Z.to_nat (Z.min position (Z.of_nat (length (visibleValues r)))))
      (visibleValues r) ++
    value :: drop (Z.to_nat (Z.min position
                               (Z.of_nat (length (visibleValues r)))))
               (visibleValues r).
Proof.
  intros Hpos.
  destruct (localInsert_visibleChars r position value Hpos)
    as (c & Hval & _ & Hvis).
  unfold visibleValues. rewrite Hvis. unfold splice.
  rewrite map_app. simpl.
  by rewrite Hval, length_map, <- fmap_take, <- fmap_drop.
Qed.
End local_insert_values.

(** X11. A local insert at a position that is not negative puts the
    value into the visible text at that position, or at the end when the
    position is past it: the visible values before and after it are those
    of the old text, in order, and [getText] joins the new list. *)
Theorem localInsert_text (r : CRDT) (position : Z) (value : string) :
  0 ≤ position →
  let p := Z.to_nat (Z.min position (Z.of_nat (length (visibleValues r)))) in
  let r' := fst (localInsert r position value) in
  visibleValues r' =
    take p (visibleValues r) ++ value :: drop p (visibleValues r) ∧
  getText r' =
    String.concat ""
      (take p (visibleValues r) ++ value :: drop p (visibleValues r)).
Proof.
  intros Hpos p r'. subst p r'.
  pose proof (localInsert_visibleValues r position value Hpos) as H.
  split; [exact H|]. unfold visibleValues, visibleChars in H.
  unfold getText. by rewrite H.
Qed.

Lemma localInsert_text_witness :
  0 ≤ 7 ∧
  visibleValues (fst (localInsert (newCRDT "s") 7 "a")) =
    take (Z.to_nat (Z.min 7 (Z.of_nat (length (visibleValues (newCRDT "s"))))))
      (visibleValues (newCRDT "s")) ++
    "a" :: drop (Z.to_nat (Z.min 7
                    (Z.of_nat (length (visibleValues (newCRDT "s"))))))
             (visibleValues (newCRDT "s")).
Proof.
  assert (0 ≤ 7) as H by lia. split; [exact H|].
  exact (proj1 (localInsert_text (newCRDT "s") 7 "a" H)).
Defined.

(** X12. A local delete at a position inside the visible text returns a
    delete operation for the id of the record shown there, logs it, and
    takes exactly that character out of the text; the record stays in the
    array as a tombstone, so the array keeps its length. *)
Theorem localDelete_text (r : CRDT) (position : Z) :
  0 ≤ position < Z.of_nat (length (visibleValues r)) →
  let p := Z.to_nat position in
  let r' := fst (localDelete r position) in
  ∃ c op,
    visibleChars r !! p = Some c ∧
    snd (localDelete r position) = Some op ∧
    op_type op = Delete (char_id c) ∧
    characters r !! Z.to_nat (op_position op) = Some c ∧
    operationHistory r' = operationHistory r ++ [op] ∧
    visibleValues r' = take p (visibleValues r) ++ drop (S p) (visibleValues r) ∧
    length (characters r') = length (characters r) ∧
    characters r' !! Z.to_nat (op_position op) = Some (setVisible false c).
Proof.
  intros Hin p r'. subst p r'.
  unfold visibleValues in Hin. rewrite length_map in Hin.
  destruct (localDelete_in_range r position Hin)
    as (k & c & Hc & Hv & Hp & Hdel & Hvis).
  exists c, (mkOperation (Delete (char_id c)) (Z.of_nat k)
               (snd (increment (vectorClock r)))
               (getCopy (fst (increment (vectorClock r))))).
  split; [exact Hp|].
  unfold visibleValues. rewrite Hvis. rewrite Hdel. simpl.
  rewrite Nat2Z.id.
  assert (k < length (characters r))%nat as Hlt
    by (apply lookup_lt_is_Some; eauto).
  repeat split; try done.
  - by rewrite map_app, <- fmap_take, <- fmap_drop.
  - apply length_insert.
  - by apply list_lookup_insert_eq.
Qed.

Lemma localDelete_text_witness :
  0 ≤ 0 < Z.of_nat (length (visibleValues (fst (localInsert (newCRDT "s") 0 "a")))) ∧
  ∃ c op,
    visibleChars (fst (localInsert (newCRDT "s") 0 "a")) !! Z.to_nat 0 = Some c ∧
    snd (localDelete (fst (localInsert (newCRDT "s") 0 "a")) 0) = Some op ∧
    op_type op = Delete (char_id c).
Proof.
  assert (0 ≤ 0 < Z.of_nat (length (visibleValues
                                      (fst (localInsert (newCRDT "s") 0 "a")))))
    as H by (vm_compute; split; [discriminate|reflexivity]).
  split; [exact H|].
  destruct (localDelete_text (fst (localInsert (newCRDT "s") 0 "a")) 0 H)
    as (c & op & H1 & H2 & H3 & _).
  exists c, op. auto.
Defined.

Section editor_position.
Implicit Types chars : list CRDTCharacter.

Lemma countVisible_spec chars (i : nat) crdtPosition visibleCount :
  countVisible chars i crdtPosition visibleCount =
    visibleCount +
    Z.of_nat (visibleLength
                (take (Z.to_nat (crdtPosition + 1 - Z.of_nat i)) chars)).
Proof.
  revert i visibleCount. induction chars as [|c rest IH];
    intros i visibleCount; simpl.
  - rewrite take_nil. unfold visibleLength. simpl. lia.
  - destruct (Z.of_nat i <=? crdtPosition) eqn:E.
    + apply Z.leb_le in E. rewrite IH.
      replace (Z.to_nat (crdtPosition + 1 - Z.of_nat i))
        with (S (Z.to_nat (crdtPosition + 1 - Z.of_nat (S i)))) by lia.
      simpl. rewrite visibleLength_cons.
      destruct (char_visible c); lia.
    + apply Z.leb_gt in E.
      replace (Z.to_nat (crdtPosition + 1 - Z.of_nat i)) with 0%nat by lia.
      unfold visibleLength. simpl. lia.
Qed.
End editor_position.

(** X13. The editor's position mapping undoes the document's: for a
    visible index inside the text, the internal index found by
    [CRDT.getVisiblePosition] holds a visible record, and
    [EditorController.getVisiblePosition] maps that internal index back to
    the visible index. *)
Theorem editorVisiblePosition_inverse (r : CRDT) (index : Z) :
  0 ≤ index < Z.of_nat (visibleLength (characters r)) →
  (∃ c, characters r !! getVisiblePosition r index = Some c ∧
        char_visible c = true) ∧
  editorVisiblePosition r (Z.of_nat (getVisiblePosition r index)) = index.
Proof.
  intros Hin. unfold getVisiblePosition, editorVisiblePosition.
  destruct (getVisiblePosition_from_in_range (characters r) 0 0 index)
    as (k & c & Hk & Hc & Hv & Hl); [lia|].
  rewrite Hk. simpl. split; [eauto|].
  rewrite countVisible_spec.
  replace (Z.to_nat (Z.of_nat k + 1 - Z.of_nat 0)) with (S k) by lia.
  rewrite (take_S_r _ _ _ Hc). unfold visibleLength in *.
  rewrite List.filter_app, length_app. simpl. rewrite Hv. simpl. lia.
Qed.

Lemma editorVisiblePosition_inverse_witness :
  0 ≤ 0 < Z.of_nat (visibleLength
                      (characters (fst (localInsert (newCRDT "s") 0 "a")))) ∧
  editorVisiblePosition (fst (localInsert (newCRDT "s") 0 "a"))
    (Z.of_nat (getVisiblePosition (fst (localInsert (newCRDT "s") 0 "a")) 0))
    = 0.
Proof.
  assert (0 ≤ 0 < Z.of_nat (visibleLength
                      (characters (fst (localInsert (newCRDT "s") 0 "a")))))
    as H by (vm_compute; split; [discriminate|reflexivity]).
  split; [exact H|].
  exact (proj2 (editorVisiblePosition_inverse
                  (fst (localInsert (newCRDT "s") 0 "a")) 0 H)).
Defined.

(** ** The editor and the replica *)

Section editor_text.
Implicit Types r : CRDT.
Implicit Types text : Text.

Lemma list_ascii_of_string_app s1 s2 :
  String.list_ascii_of_string (s1 +:+ s2) =
    String.list_ascii_of_string s1 ++ String.list_ascii_of_string s2.
Proof. induction s1 as [|a s1 IH]; simpl; [done|]. by rewrite IH. Qed.

Lemma concat_charAt text :
  String.list_ascii_of_string (String.concat "" (map charAt text)) = text.
Proof.
  induction text as [|a text IH]; [done|].
  destruct text as [|b text]; [done|].
  change (String.list_ascii_of_string
            (charAt a +:+ "" +:+ String.concat "" (map charAt (b :: text)))
          = a :: b :: text).
  rewrite !list_ascii_of_string_app, IH. done.
Qed.

Lemma spells_textOf r text : spells r text → textOf r = text.
Proof.
  unfold spells, textOf, getText, visibleValues, visibleChars. intros ->.
  apply concat_charAt.
Qed.

Lemma spells_length r text : spells r text → length (visibleChars r) = length text.
Proof.
  unfold spells, visibleValues. intros H.
  apply (f_equal length) in H. by rewrite !length_map in H.
Qed.

Lemma spells_singleChars r text : spells r text → singleChars r.
Proof.
  unfold spells, visibleValues. intros H c Hc.
  assert (char_value c ∈ map charAt text) as Hin.
  { rewrite <- H. apply list_elem_of_fmap. eauto. }
  apply list_elem_of_fmap in Hin as (a & Ha & _). eauto.
Qed.

Lemma singleChars_spells r : singleChars r → ∃ text, spells r text.
Proof.
  unfold singleChars, spells, visibleValues.
  induction (visibleChars r) as [|c l IH]; intros H.
  - by exists [].
  - destruct (H c) as [a Ha]; [by left|].
    destruct IH as [text Ht]; [intros c' Hc'; apply H; by right|].
    exists (a :: text). simpl. by rewrite Ha, Ht.
Qed.

Lemma insertChars_cons r (position i : nat) a inserted :
  insertChars r position i (a :: inserted) =
    (fst (insertChars
            (fst (localInsert r (Z.of_nat (position + i)) (charAt a)))
            position (S i) inserted),
     snd (localInsert r (Z.of_nat (position + i)) (charAt a))
     :: snd (insertChars
               (fst (localInsert r (Z.of_nat (position + i)) (charAt a)))
               position (S i) inserted)).
Proof.
  cbn [insertChars]. fold (charAt a).
  destruct (localInsert r (Z.of_nat (position + i)) (charAt a)) as [r1 op].
  simpl. by destruct (insertChars r1 position (S i) inserted).
Qed.

Lemma deleteChars_succ r (position i : nat) :
  deleteChars r position (S i) =
    (fst (deleteChars (fst (localDelete r (Z.of_nat (position + i))))
            position i),
     option_list (snd (localDelete r (Z.of_nat (position + i)))) ++
     snd (deleteChars (fst (localDelete r (Z.of_nat (position + i))))
            position i)).
Proof.
  cbn [deleteChars].
  destruct (localDelete r (Z.of_nat (position + i))) as [r1 op].
  simpl. by destruct (deleteChars r1 position i).
Qed.

(** The insert loop types [inserted] into the text at [position + i]. *)
Lemma insertChars_spells inserted :
  ∀ r (position i : nat) text,
    spells r text →
    (position + i ≤ length text)%nat →
    spells (fst (insertChars r position i inserted))
      (take (position + i) text ++ inserted ++ drop (position + i) text) ∧
    length (snd (insertChars r position i inserted)) = length inserted.
Proof.
  induction inserted as [|a inserted IH]; intros r position i text Hs Hle.
  - simpl. by rewrite take_drop.
  - rewrite insertChars_cons.
    pose proof (localInsert_visibleValues r (Z.of_nat (position + i))
                  (charAt a)) as Hins.
    set (r1 := fst (localInsert r (Z.of_nat (position + i)) (charAt a))) in *.
    assert (spells r1 (take (position + i) text ++ a :: drop (position + i) text))
      as Hs1.
    { unfold spells. rewrite Hins by lia. rewrite Hs, length_map.
      replace (Z.to_nat (Z.min (Z.of_nat (position + i))
                           (Z.of_nat (length text))))
        with (position + i)%nat by lia.
      rewrite map_app. simpl. by rewrite <- fmap_take, <- fmap_drop. }
    destruct (IH r1 position (S i) _ Hs1) as [IH1 IH2].
    { rewrite length_app, length_take. simpl. rewrite length_drop. lia. }
    cbn [fst snd length]. split; [|by rewrite IH2].
    replace (position + S i)%nat with (S (position + i)) in IH1 by lia.
    assert (length (take (position + i) text) = (position + i)%nat) as Hlen
      by (rewrite length_take; lia).
    assert (take (S (position + i))
              (take (position + i) text ++ a :: drop (position + i) text)
            = take (position + i) text ++ [a]) as Ht.
    { rewrite (cons_middle a), app_assoc. apply take_app_length'.
      rewrite length_app. simpl. lia. }
    assert (drop (S (position + i))
              (take (position + i) text ++ a :: drop (position + i) text)
            = drop (position + i) text) as Hd.
    { rewrite (cons_middle a), app_assoc. apply drop_app_length'.
      rewrite length_app. simpl. lia. }
    rewrite Ht, Hd in IH1. by rewrite <- app_assoc in IH1.
Qed.

(** The delete loop takes [n] characters out of the text from
    [position] on, last one first. *)
Lemma deleteChars_spells (n : nat) :
  ∀ r (position : nat) text,
    spells r text →
    (position + n ≤ length text)%nat →
    spells (fst (deleteChars r position n))
      (take position text ++ drop (position + n) text) ∧
    length (snd (deleteChars r position n)) = n.
Proof.
  induction n as [|i IH]; intros r position text Hs Hle.
  - simpl. by rewrite Nat.add_0_r, take_drop.
  - rewrite deleteChars_succ.
    destruct (localDelete_in_range r (Z.of_nat (position + i)))
      as (k & c & _ & _ & _ & Hdel & Hvis).
    { rewrite (spells_length r text Hs). lia. }
    assert (option_list (snd (localDelete r (Z.of_nat (position + i))))
            = [mkOperation (Delete (char_id c)) (Z.of_nat k)
                 (snd (increment (vectorClock r)))
                 (getCopy (fst (increment (vectorClock r))))]) as Hop
      by (by rewrite Hdel).
    rewrite Hop. clear Hdel Hop.
    set (r1 := fst (localDelete r (Z.of_nat (position + i)))) in *.
    rewrite Nat2Z.id in Hvis.
    assert (spells r1 (take (position + i) text ++ drop (S (position + i)) text))
      as Hs1.
    { unfold spells, visibleValues. rewrite Hvis.
      rewrite map_app, fmap_take, fmap_drop.
      fold (visibleValues r). rewrite Hs.
      by rewrite map_app, fmap_take, fmap_drop. }
    destruct (IH r1 position _ Hs1) as [IH1 IH2].
    { rewrite length_app, length_take, length_drop. lia. }
    cbn [fst snd]. split; [|simpl; by rewrite IH2].
    assert (length (take (position + i) text) = (position + i)%nat) as Hlen
      by (rewrite length_take; lia).
    rewrite take_app_le, take_take in IH1 by lia.
    rewrite drop_app_length' in IH1 by done.
    replace (position `min` (position + i))%nat with position in IH1 by lia.
    by replace (position + S i)%nat with (S (position + i)) by lia.
Qed.

Lemma applyChange_spells r ops change text :
  spells r text →
  match change with
  | deleteChange position count => (position + count ≤ length text)%nat
  | insertChange position _ => (position ≤ length text)%nat
  end →
  spells (fst (applyChange (r, ops) change)) (applyChangeText text change).
Proof.
  intros Hs Hvalid. unfold applyChange. simpl.
  destruct change as [position count|position inserted].
  - destruct (deleteChars_spells count r position text Hs Hvalid) as [H _].
    by destruct (deleteChars r position count).
  - destruct (insertChars_spells inserted r position 0 text Hs) as [H _];
      [lia|].
    rewrite Nat.add_0_r in H. by destruct (insertChars r position 0 inserted).
Qed.
End editor_text.

Section diff.
Implicit Types oldText newText : Text.

Lemma commonPrefix_spec (n : nat) :
  ∀ oldText newText (prefixLen : nat),
    n = (length oldText - prefixLen)%nat →
    (prefixLen ≤ length oldText)%nat →
    (prefixLen ≤ length newText)%nat →
    take prefixLen oldText = take prefixLen newText →
    let p := commonPrefix n oldText newText prefixLen in
    (p ≤ length oldText)%nat ∧ (p ≤ length newText)%nat ∧
    take p oldText = take p newText ∧
    ((p < length oldText)%nat → (p < length newText)%nat →
     oldText !! p ≠ newText !! p).
Proof.
  induction n as [|n IH]; intros oldText newText prefixLen Hn Ho Hnw Heq; simpl.
  - repeat split; try done. lia.
  - destruct (prefixLen <? length newText)%nat eqn:E; simpl.
    2:{ apply Nat.ltb_ge in E. repeat split; try done. lia. }
    apply Nat.ltb_lt in E.
    destruct (bool_decide _) eqn:B.
    2:{ apply bool_decide_eq_false in B. repeat split; done. }
    apply bool_decide_eq_true in B.
    destruct (lookup_lt_is_Some_2 oldText prefixLen) as [a Ha]; [lia|].
    apply IH; [lia|lia|lia|].
    rewrite (take_S_r _ _ _ Ha). rewrite B in Ha.
    by rewrite (take_S_r _ _ _ Ha), Heq.
Qed.

Lemma commonSuffix_spec (n : nat) :
  ∀ oldText newText (prefixLen suffixLen : nat),
    n = (length oldText - prefixLen - suffixLen)%nat →
    (suffixLen ≤ length oldText - prefixLen)%nat →
    (suffixLen ≤ length newText - prefixLen)%nat →
    drop (length oldText - suffixLen) oldText
      = drop (length newText - suffixLen) newText →
    let t := commonSuffix n oldText newText prefixLen suffixLen in
    (t ≤ length oldText - prefixLen)%nat ∧
    (t ≤ length newText - prefixLen)%nat ∧
    drop (length oldText - t) oldText = drop (length newText - t) newText.
Proof.
  induction n as [|n IH];
    intros oldText newText prefixLen suffixLen Hn Ho Hnw Heq; simpl.
  - done.
  - destruct (suffixLen <? length newText - prefixLen)%nat eqn:E; simpl;
      [|done].
    apply Nat.ltb_lt in E.
    destruct (bool_decide _) eqn:B; [|done].
    apply bool_decide_eq_true in B.
    destruct (lookup_lt_is_Some_2 oldText (length oldText - 1 - suffixLen))
      as [a Ha]; [lia|].
    apply IH; [lia|lia|lia|].
    replace (length oldText - S suffixLen)%nat
      with (length oldText - 1 - suffixLen)%nat by lia.
    replace (length newText - S suffixLen)%nat
      with (length newText - 1 - suffixLen)%nat by lia.
    rewrite (drop_S _ _ _ Ha). rewrite B in Ha. rewrite (drop_S _ _ _ Ha).
    replace (S (length oldText - 1 - suffixLen)) with
      (length oldText - suffixLen)%nat by lia.
    replace (S (length newText - 1 - suffixLen)) with
      (length newText - suffixLen)%nat by lia.
    by rewrite Heq.
Qed.

(** The two texts around the part that changed. *)
Lemma calculateDiff_decompose oldText newText :
  ∃ (before oldMid newMid after : Text),
    oldText = before ++ oldMid ++ after ∧
    newText = before ++ newMid ++ after ∧
    (∀ a b oldMid' newMid',
       oldMid = a :: oldMid' → newMid = b :: newMid' → a ≠ b) ∧
    calculateDiff oldText newText =
      if (0 <? length oldMid)%nat && (0 <? length newMid)%nat then
        [deleteChange (length before) (length oldMid);
         insertChange (length before) newMid]
      else if (0 <? length oldMid)%nat then
        [deleteChange (length before) (length oldMid)]
      else if (0 <? length newMid)%nat then
        [insertChange (length before) newMid]
      else [].
Proof.
  unfold calculateDiff.
  set (p := commonPrefix (length oldText) oldText newText 0).
  set (t := commonSuffix (length oldText - p) oldText newText p 0).
  destruct (commonPrefix_spec (length oldText) oldText newText 0)
    as (Hpo & Hpn & Hp & Hmax); [lia|lia|lia|done|].
  fold p in Hpo, Hpn, Hp, Hmax.
  destruct (commonSuffix_spec (length oldText - p) oldText newText p 0)
    as (Hto & Htn & Ht); [lia|lia|lia| |].
  { rewrite !Nat.sub_0_r. by rewrite !drop_all. }
  fold t in Hto, Htn, Ht.
  exists (take p oldText), (substring p (length oldText - t) oldText),
    (substring p (length newText - t) newText),
    (drop (length oldText - t) oldText).
  assert (∀ text : Text, (p + t ≤ length text)%nat →
            text = take p text ++ substring p (length text - t) text
                   ++ drop (length text - t) text) as Hsplit.
  { intros text Hlen. unfold substring.
    rewrite Nat.min_l, Nat.max_r by lia.
    rewrite app_assoc, take_take_drop.
    replace (p + (length text - t - p))%nat with (length text - t)%nat by lia.
    by rewrite take_drop. }
  assert (∀ (text : Text) a rest,
            (p + t ≤ length text)%nat →
            substring p (length text - t) text = a :: rest →
            (p < length text)%nat ∧ text !! p = Some a) as Hhead.
  { intros text a rest Hlen. unfold substring.
    rewrite Nat.min_l, Nat.max_r by lia. intros H.
    destruct (decide (p < length text)%nat) as [Hlt|Hge].
    - split; [done|].
      destruct (lookup_lt_is_Some_2 text p Hlt) as [x Hx].
      rewrite Hx. f_equal. rewrite (drop_S _ _ _ Hx) in H.
      destruct (length text - t - p)%nat; simpl in H; congruence.
    - rewrite drop_ge, take_nil in H by lia. done. }
  rewrite length_take, Nat.min_l by lia.
  split; [apply Hsplit; lia|]. split; [rewrite Hp, Ht; apply Hsplit; lia|].
  split; [|done].
  intros a b oldMid' newMid' Ha Hb Hab. subst b.
  apply Hhead in Ha as [Hla Ha]; [|lia]. apply Hhead in Hb as [Hlb Hb]; [|lia].
  apply (Hmax Hla Hlb). by rewrite Ha, Hb.
Qed.
End diff.

Section diff_applies.

Lemma calculateDiff_applies (oldText newText : Text) :
  foldl applyChangeText oldText (calculateDiff oldText newText) = newText ∧
  (calculateDiff oldText newText = [] ↔ oldText = newText) ∧
  (length (calculateDiff oldText newText) ≤ 2)%nat.
Proof.
  destruct (calculateDiff_decompose oldText newText)
    as (before & oldMid & newMid & after & -> & -> & Hne & ->).
  destruct oldMid as [|a oldMid], newMid as [|b newMid]; simpl.
  - repeat split; try done; lia.
  - rewrite take_app_length, drop_app_length.
    repeat split; try lia; try done.
    intros H. apply (f_equal length) in H.
    rewrite ?length_app in H. simpl in H. rewrite ?length_app in H. lia.
  - rewrite take_app_length, (cons_middle a), !app_assoc.
    rewrite drop_app_length' by (rewrite !length_app; simpl; lia).
    repeat split; try lia; try done.
    intros H. apply (f_equal length) in H.
    rewrite ?length_app in H. simpl in H. rewrite ?length_app in H. lia.
  - rewrite take_app_length, (cons_middle a before), !app_assoc.
    rewrite drop_app_length' by (rewrite !length_app; simpl; lia).
    rewrite take_app_length, drop_app_length.
    repeat split; try lia; try done.
    intros H. rewrite <- !app_assoc in H.
    apply (inj (app before)) in H. simpl in H.
    injection H as Hab _. by destruct (Hne a b oldMid newMid).
Qed.

Lemma handleInput_spells (r : CRDT) (text currentText : Text) :
  spells r text →
  spells (fst (foldl applyChange (r, []) (calculateDiff text currentText)))
    currentText.
Proof.
  intros Hs.
  destruct (calculateDiff_applies text currentText) as [Happ _].
  rewrite <- Happ at 2. clear Happ.
  destruct (calculateDiff_decompose text currentText)
    as (before & oldMid & newMid & after & Ht & _ & _ & ->).
  assert (length text = (length before + length oldMid + length after)%nat)
    as Hlen by (rewrite Ht, !length_app; lia).
  destruct (0 <? length oldMid)%nat eqn:Eo, (0 <? length newMid)%nat eqn:En;
    cbn [andb foldl].
  - destruct (applyChange (r, [])
                (deleteChange (length before) (length oldMid)))
      as [r1 ops1] eqn:E1.
    assert (spells r1 (applyChangeText text
                         (deleteChange (length before) (length oldMid))))
      as Hs1.
    { replace r1 with (fst (applyChange (r, [])
                         (deleteChange (length before) (length oldMid))))
        by (by rewrite E1).
      apply applyChange_spells; [done|lia]. }
    apply applyChange_spells; [done|].
    simpl. rewrite length_app, length_take, length_drop. lia.
  - apply applyChange_spells; [done|lia].
  - apply applyChange_spells; [done|lia].
  - done.
Qed.
End diff_applies.

(** X14. [calculateDiff] finds a change that leads from the old text to
    the new one: carrying its entries out on the old text, in order,
    gives the new text. It is empty exactly when the texts are equal, and
    has at most two entries, a delete followed by an insert at the same
    position. *)
Theorem calculateDiff_correct (oldText newText : Text) :
  foldl applyChangeText oldText (calculateDiff oldText newText) = newText ∧
  (calculateDiff oldText newText = [] ↔ oldText = newText) ∧
  (length (calculateDiff oldText newText) ≤ 2)%nat.
Proof. apply calculateDiff_applies. Qed.

(** X15. [handleInput] brings the replica to the text of the editor:
    when every visible record holds one code unit, the text of the
    replica after [handleInput] is the text typed, every visible record
    still holds one code unit, and a second [handleInput] with the same
    text sends nothing. A text equal to the replica's changes nothing. *)
Theorem handleInput_text (r : CRDT) (currentText : Text) :
  singleChars r →
  let r' := fst (handleInput r currentText) in
  textOf r' = currentText ∧
  singleChars r' ∧
  handleInput r' currentText = (r', []) ∧
  (currentText = textOf r → handleInput r currentText = (r, [])).
Proof.
  intros Hsingle r'.
  destruct (singleChars_spells r Hsingle) as [text Hs].
  pose proof (spells_textOf r text Hs) as Htext.
  assert (spells r' currentText) as Hs'.
  { subst r'. unfold handleInput. fold (textOf r). rewrite Htext.
    destruct (decide (currentText = text)) as [->|Hne]; [done|].
    by apply handleInput_spells. }
  pose proof (spells_textOf r' currentText Hs') as Htext'.
  split; [done|]. split; [by eapply spells_singleChars|]. split.
  - unfold handleInput at 1. fold (textOf r'). rewrite Htext'.
    by rewrite decide_True.
  - intros ->. unfold handleInput. fold (textOf r). by rewrite decide_True.
Qed.

Lemma handleInput_text_witness :
  singleChars (newCRDT "s") ∧
  textOf (fst (handleInput (newCRDT "s")
                 (String.list_ascii_of_string "hello")))
    = String.list_ascii_of_string "hello".
Proof.
  assert (singleChars (newCRDT "s")) as H.
  { intros c Hc. by apply elem_of_nil in Hc. }
  split; [exact H|].
  exact (proj1 (handleInput_text (newCRDT "s")
                  (String.list_ascii_of_string "hello") H)).
Defined.


(** ** More on inbound messages *)

Section inbound_more.
Implicit Types se : SyncEngine.

Lemma pruneReceived_length (received : list (option string)) :
  (length received ≤ 1001)%nat → (length (pruneReceived received) ≤ 1000)%nat.
Proof.
  intros Hlen. unfold pruneReceived.
  destruct (1000 <? length received)%nat eqn:E.
  - apply Nat.ltb_lt in E.
    set (toDelete := take 500 received).
    assert (∀ id, id ∈ take 500 received → id ∈ toDelete) as Hdel by done.
    rewrite <- (take_drop 500 received).
    rewrite List.filter_app, (filter_nil_of_false _ (take 500 received)).
    + simpl. etrans; [apply List.filter_length_le|].
      rewrite length_drop. lia.
    + intros id Hid. rewrite bool_decide_eq_true_2; [done|by apply Hdel].
  - apply Nat.ltb_ge in E. lia.
Qed.

Lemma handleMessage_received now se message :
  receivedOperations (fst (handleMessage now se message)) =
    if bool_decide (msg_siteId message = siteId (crdt se)
                    ∨ msg_messageId message ∈ receivedOperations se)
    then receivedOperations se
    else pruneReceived (receivedOperations se ++ [msg_messageId message]).
Proof.
  destruct (decide (msg_siteId message = siteId (crdt se))) as [Hsite|Hsite].
  { rewrite handleMessage_own by done.
    rewrite bool_decide_eq_true_2; [done|by left]. }
  destruct (decide (msg_messageId message ∈ receivedOperations se)) as [Hid|Hid].
  { rewrite handleMessage_seen by done.
    rewrite bool_decide_eq_true_2; [done|by right]. }
  rewrite bool_decide_eq_false_2 by (by intros [?|?]).
  by destruct (handleMessage_fresh now se message Hsite Hid).
Qed.

Lemma applyRemote_log (r : CRDT) op :
  operationHistory (applyRemote r op) = operationHistory r ∧
  counter (applyRemote r op) = counter r.
Proof. unfold applyRemote. by destruct (op_type op). Qed.

Lemma handleMessage_crdt now se message :
  crdt (fst (handleMessage now se message)) = crdt se ∨
  ∃ data, msg_type message = operation data ∧
          crdt (fst (handleMessage now se message))
            = applyRemote (crdt se) (deserializeOperation data).
Proof.
  unfold handleMessage.
  destruct (decide _); [by left|]. destruct (bool_decide (_ ∈ _)); [by left|].
  destruct (msg_type message) as [data|ackId|type]; [|by left..].
  destruct (bool_decide _); [|by left]. right. eauto.
Qed.



End inbound_more.

(** X16. Of two acknowledgements that arrive one after the other, the
    second is always ignored. A message built by [sendAck] has no
    [messageId], so the first one handled leaves [undefined] in the dedup
    set and every later one is dropped as a duplicate: the entry of
    [pendingAcks] it names stays pending. The first one removes its entry
    if [undefined] was not in the set before. *)
Theorem second_ack_ignored (now1 now2 t1 t2 : Z) (se peer1 peer2 : SyncEngine)
    (k1 k2 : string) :
  siteId (crdt peer1) ≠ siteId (crdt se) →
  k1 ≠ k2 →
  let ack1 := sendAck t1 peer1 (Some k1) (siteId (crdt se)) in
  let ack2 := sendAck t2 peer2 (Some k2) (siteId (crdt se)) in
  let se1 := fst (handleMessage now1 se ack1) in
  (None ∉ receivedOperations se →
   pendingAcks se1 = delete k1 (pendingAcks se)) ∧
  handleMessage now2 se1 ack2 = (se1, []) ∧
  pendingAcks (fst (handleMessage now2 se1 ack2)) !! k2 = pendingAcks se !! k2.
Proof.
  intros Hsite Hk ack1 ack2 se1.
  assert (None ∈ receivedOperations se1) as Hin.
  { subst se1. rewrite handleMessage_received.
    destruct (bool_decide _) eqn:B.
    - apply bool_decide_eq_true in B as [B|B]; [done|exact B].
    - apply bool_decide_eq_false in B.
      apply (pruneReceived_keeps_last (receivedOperations se) None).
      intros H. apply B. by right. }
  assert (pendingAcks se1 !! k2 = pendingAcks se !! k2) as Hk2.
  { subst se1 ack1. unfold handleMessage, sendAck. simpl.
    rewrite decide_False by done.
    destruct (bool_decide _); [done|]. simpl. by apply lookup_delete_ne. }
  assert (handleMessage now2 se1 ack2 = (se1, [])) as H2
    by (by apply handleMessage_seen).
  split; [|split; [exact H2|by rewrite H2]].
  intros Hnone. subst se1 ack1. unfold handleMessage, sendAck. simpl.
  rewrite decide_False by done. by rewrite bool_decide_eq_false_2.
Qed.

Lemma second_ack_ignored_witness :
  siteId (crdt (mkSyncEngine (newCRDT "b") true [] ∅)) ≠ siteId (crdt engine0) ∧
  "m1" ≠ "m2" ∧
  handleMessage 2
    (fst (handleMessage 1 engine0
            (sendAck 0 (mkSyncEngine (newCRDT "b") true [] ∅) (Some "m1")
               (siteId (crdt engine0)))))
    (sendAck 0 (mkSyncEngine (newCRDT "c") true [] ∅) (Some "m2")
       (siteId (crdt engine0)))
  = (fst (handleMessage 1 engine0
            (sendAck 0 (mkSyncEngine (newCRDT "b") true [] ∅) (Some "m1")
               (siteId (crdt engine0)))), []).
Proof.
  assert (siteId (crdt (mkSyncEngine (newCRDT "b") true [] ∅))
          ≠ siteId (crdt engine0)) as H1 by done.
  assert ("m1" ≠ "m2") as H2 by done.
  split; [exact H1|]. split; [exact H2|].
  exact (proj1 (proj2 (second_ack_ignored 1 2 0 0 engine0
                         (mkSyncEngine (newCRDT "b") true [] ∅)
                         (mkSyncEngine (newCRDT "c") true [] ∅)
                         "m1" "m2" H1 H2))).
Defined.

(** X17. The dedup set stays bounded: if it holds at most 1000 ids before
    a message is handled it holds at most 1000 afterwards, and the id of a
    message from another site is in it afterwards. *)
Theorem receivedOperations_bounded (now : Z) (se : SyncEngine)
    (message : Message) :
  (length (receivedOperations se) ≤ 1000)%nat →
  (length (receivedOperations (fst (handleMessage now se message))) ≤ 1000)%nat ∧
  (msg_siteId message ≠ siteId (crdt se) →
   msg_messageId message
     ∈ receivedOperations (fst (handleMessage now se message))).
Proof.
  intros Hlen. rewrite handleMessage_received.
  destruct (bool_decide _) eqn:B.
  - split; [done|]. intros Hsite.
    apply bool_decide_eq_true in B as [B|B]; done.
  - apply bool_decide_eq_false in B. split.
    + apply pruneReceived_length. rewrite length_app. simpl. lia.
    + intros _. apply pruneReceived_keeps_last. intros H. apply B. by right.
Qed.

Lemma receivedOperations_bounded_witness :
  (length (receivedOperations engine0) ≤ 1000)%nat ∧
  (length (receivedOperations (fst (handleMessage 0 engine0 messageX))) ≤ 1000)%nat.
Proof.
  assert (length (receivedOperations engine0) ≤ 1000)%nat as H
    by (simpl; lia).
  split; [exact H|].
  exact (proj1 (receivedOperations_bounded 0 engine0 messageX H)).
Defined.

(** X18. Remote operations are never logged: whatever the message,
    [handleMessage] leaves the site id, the id counter and the operation
    log of the replica as they are, so the transformation of cursor
    positions, which replays that log, is the same before and after. *)
Theorem handleMessage_keeps_log (now : Z) (se : SyncEngine) (message : Message)
    (position : Z) (remoteVectorClock : Clock) :
  let se' := fst (handleMessage now se message) in
  siteId (crdt se') = siteId (crdt se) ∧
  counter (crdt se') = counter (crdt se) ∧
  operationHistory (crdt se') = operationHistory (crdt se) ∧
  transformCursorPosition se' position remoteVectorClock
    = transformCursorPosition se position remoteVectorClock.
Proof.
  intros se'. subst se'. unfold transformCursorPosition.
  destruct (handleMessage_crdt now se message) as [-> | (data & _ & ->)].
  - done.
  - rewrite applyRemote_siteId.
    destruct (applyRemote_log (crdt se) (deserializeOperation data))
      as [-> ->].
    done.
Qed.



(** ** The comparator and the remote edits *)

(** X20. [compareCharacters] is a consistent comparator: swapping the
    arguments negates the result, "sorts before" is transitive, the
    result is 0 only for records with the same id, the same site and
    clocks that read the same everywhere, and the visible flag plays no
    part. *)
Theorem compareCharacters_consistent (x y z : CRDTCharacter) (v : bool) :
  compareCharacters y x = - compareCharacters x y ∧
  (compareCharacters x y < 0 → compareCharacters y z < 0 →
   compareCharacters x z < 0) ∧
  (compareCharacters x y = 0 →
   char_id x = char_id y ∧ char_siteId x = char_siteId y ∧
   ∀ k, get (char_vectorClock x) k = get (char_vectorClock y) k) ∧
  compareCharacters (setVisible v x) y = compareCharacters x y ∧
  compareCharacters x (setVisible v y) = compareCharacters x y.
Proof.
  split; [apply compareCharacters_swap|].
  split; [apply char_lt_trans|].
  split; [|done].
  intros H. destruct (compareCharacters_zero x y H) as (Hc & Hs & Hi). done.
Qed.

Lemma compareCharacters_consistent_witness :
  compareCharacters (sampleAt 10) sampleX < 0 ∧
  compareCharacters sampleX sampleY < 0 ∧
  compareCharacters (sampleAt 10) sampleY < 0.
Proof.
  assert (compareCharacters (sampleAt 10) sampleX < 0) as H1 by (by vm_compute).
  assert (compareCharacters sampleX sampleY < 0) as H2 by (by vm_compute).
  split; [exact H1|]. split; [exact H2|].
  exact (proj1 (proj2 (compareCharacters_consistent (sampleAt 10) sampleX
                         sampleY true)) H1 H2).
Defined.


Section remote_delete.
Implicit Types chars : list CRDTCharacter.
Implicit Types r : CRDT.

Lemma remoteDelete_tombstoneFirst r opClock charId :
  characters (remoteDelete r opClock charId) =
    tombstoneFirst charId (characters r).
Proof.
  unfold remoteDelete; simpl.
  induction (characters r) as [|c chars IH]; simpl; [done|].
  destruct (decide (char_id c = charId)); [done|].
  rewrite findIndex_shift.
  destruct (findIndex chars charId 0); simpl in *; by rewrite <- IH.
Qed.

Lemma tombstoneFirst_idem charId chars :
  tombstoneFirst charId (tombstoneFirst charId chars)
    = tombstoneFirst charId chars.
Proof.
  induction chars as [|c chars IH]; simpl; [done|].
  destruct (decide (char_id c = charId)) as [E|E]; simpl.
  - by rewrite decide_True.
  - rewrite decide_False by done. by rewrite IH.
Qed.

Lemma tombstoneFirst_commute id1 id2 chars :
  tombstoneFirst id1 (tombstoneFirst id2 chars)
    = tombstoneFirst id2 (tombstoneFirst id1 chars).
Proof.
  induction chars as [|c chars IH]; simpl; [done|].
  destruct (decide (char_id c = id2)) as [E2|E2],
    (decide (char_id c = id1)) as [E1|E1]; simpl.
  - by rewrite !decide_True.
  - rewrite decide_False, decide_True by done. done.
  - rewrite decide_True, decide_False by done. done.
  - rewrite !decide_False by done. by rewrite IH.
Qed.

Lemma tombstoneFirst_ids charId chars :
  map char_id (tombstoneFirst charId chars) = map char_id chars.
Proof.
  induction chars as [|c chars IH]; simpl; [done|].
  destruct (decide (char_id c = charId)); simpl; [done|]. by rewrite IH.
Qed.

Lemma tombstoneFirst_insertSorted charId char chars :
  char_id char ≠ charId →
  tombstoneFirst charId (insertSorted char chars)
    = insertSorted char (tombstoneFirst charId chars).
Proof.
  intros Hne. induction chars as [|c chars IH]; simpl.
  - by rewrite decide_False.
  - destruct (decide (char_id c = charId)) as [E|E]; simpl;
      rewrite ?compareCharacters_setVisible_l;
      destruct (compareCharacters c char <? 0); simpl.
    + by rewrite decide_True.
    + rewrite decide_False by done. simpl. by rewrite decide_True.
    + rewrite decide_False by done. by rewrite IH.
    + rewrite decide_False by done. simpl. by rewrite decide_False.
Qed.

Lemma get_update_update vc a b site :
  get (vc_clock (update (update vc a) b)) site
    = get (vc_clock (update (update vc b) a)) site.
Proof.
  rewrite !get_update. destruct (a !! site), (b !! site); lia.
Qed.
End remote_delete.

(** X22. The edits that come from outside, and the local delete, keep a
    sorted document sorted. *)
Theorem remote_edits_keep_order (r : CRDT) (op : Operation) (position : Z) :
  sortedDocument (characters r) →
  sortedDocument (characters (applyRemote r op)) ∧
  sortedDocument (characters (fst (localDelete r position))).
Proof.
  intros H. split; [|by apply localDelete_sorted].
  unfold applyRemote. destruct (op_type op).
  - by apply remoteInsert_sorted.
  - by apply remoteDelete_sorted.
Qed.

Lemma remote_edits_keep_order_witness :
  sortedDocument (characters (applyRemote (newCRDT "a") insertY)) ∧
  sortedDocument
    (characters (applyRemote (applyRemote (newCRDT "a") insertY) insertX)).
Proof.
  assert (sortedDocument (characters (applyRemote (newCRDT "a") insertY)))
    as H by (apply (bool_decide_unpack _); by vm_compute).
  split; [exact H|].
  exact (proj1 (remote_edits_keep_order (applyRemote (newCRDT "a") insertY)
                  insertX 0 H)).
Defined.

(** X23. Remote operations on different records commute: a remote insert
    and a remote delete of another id give the same character sequence
    and the same clock readings in either order. *)
Theorem remoteInsert_remoteDelete_commute (r : CRDT) (iClock dClock : Clock)
    (char : CRDTCharacter) (charId : string) (site : string) :
  char_id char ≠ charId →
  characters (remoteDelete (remoteInsert r iClock char) dClock charId)
    = characters (remoteInsert (remoteDelete r dClock charId) iClock char) ∧
  get (vc_clock (vectorClock
                   (remoteDelete (remoteInsert r iClock char) dClock charId)))
      site
    = get (vc_clock (vectorClock
                       (remoteInsert (remoteDelete r dClock charId) iClock
                          char))) site.
Proof.
  intros Hne. split; [|apply get_update_update].
  rewrite remoteDelete_tombstoneFirst, !remoteInsert_characters.
  rewrite remoteDelete_tombstoneFirst, tombstoneFirst_ids.
  destruct (bool_decide _); [done|]. by apply tombstoneFirst_insertSorted.
Qed.

Lemma remoteInsert_remoteDelete_commute_witness :
  char_id sampleY ≠ "b-0" ∧
  characters (remoteDelete
                (remoteInsert (applyRemote (newCRDT "a") insertX)
                   {[ "b" := 2 ]} sampleY) {[ "b" := 3 ]} "b-0")
    = characters (remoteInsert
                    (remoteDelete (applyRemote (newCRDT "a") insertX)
                       {[ "b" := 3 ]} "b-0") {[ "b" := 2 ]} sampleY).
Proof.
  assert (char_id sampleY ≠ "b-0") as H by done.
  split; [exact H|].
  exact (proj1 (remoteInsert_remoteDelete_commute
                  (applyRemote (newCRDT "a") insertX) {[ "b" := 2 ]}
                  {[ "b" := 3 ]} sampleY "b-0" "b" H)).
Defined.

(** X24. A remote delete is idempotent and two remote deletes commute,
    on the character sequence and on the clock readings; a remote delete
    never changes the length of the array nor the ids in it. *)
Theorem remoteDelete_idempotent_commutes (r : CRDT) (clock1 clock2 : Clock)
    (id1 id2 : string) (site : string) :
  characters (remoteDelete (remoteDelete r clock1 id1) clock2 id1)
    = characters (remoteDelete r clock1 id1) ∧
  characters (remoteDelete (remoteDelete r clock1 id1) clock2 id2)
    = characters (remoteDelete (remoteDelete r clock2 id2) clock1 id1) ∧
  get (vc_clock (vectorClock (remoteDelete (remoteDelete r clock1 id1)
                                clock2 id2))) site
    = get (vc_clock (vectorClock (remoteDelete (remoteDelete r clock2 id2)
                                    clock1 id1))) site ∧
  map char_id (characters (remoteDelete r clock1 id1))
    = map char_id (characters r).
Proof.
  rewrite !remoteDelete_tombstoneFirst.
  split; [apply tombstoneFirst_idem|].
  split; [apply tombstoneFirst_commute|].
  split; [apply get_update_update|apply tombstoneFirst_ids].
Qed.

(** ** Presence *)

Section presence.
Implicit Types peers : Peers.

Lemma hasPeer_true peerId peers :
  hasPeer peerId peers = true ↔ peerId ∈ map fst peers.
Proof.
  unfold hasPeer. rewrite existsb_exists, list_elem_of_fmap. split.
  - intros (e & Hin & He). exists e. apply bool_decide_eq_true in He.
    split; [done|]. by apply list_elem_of_In.
  - intros (e & He & Hin). exists e.
    split; [by apply list_elem_of_In|]. by apply bool_decide_eq_true.
Qed.

Lemma touchPeer_keys peerId now peers :
  map fst (touchPeer peerId now peers) = map fst peers.
Proof.
  induction peers as [|[k peer] peers IH]; simpl; [done|].
  destruct (decide (k = peerId)); simpl; [done|]. by rewrite IH.
Qed.

Lemma touchPeer_snoc peerId now peers peer :
  peerId ∉ map fst peers →
  touchPeer peerId now (peers ++ [(peerId, peer)]) =
    peers ++ [(peerId, mkPeer (peer_siteId peer) (peer_sessionId peer) now)].
Proof.
  induction peers as [|[k p] peers IH]; simpl; intros Hn.
  - by rewrite decide_True.
  - rewrite not_elem_of_cons in Hn. destruct Hn as [Hk Hn].
    rewrite decide_False by done. by rewrite IH.
Qed.

Lemma filter_filter_negb {A} (f : A → bool) (l : list A) :
  List.filter f (List.filter (λ x, negb (f x)) l) = [].
Proof.
  apply filter_nil_of_false. intros x Hx.
  apply list_elem_of_In, filter_In in Hx as [_ Hx]. by destruct (f x).
Qed.
End presence.

(** X25. A peer joins once: the first presence message of another site
    appends it to the peer map with the time of arrival and reports one
    join; a later presence message of the same site reports nothing,
    leaves the number of peers as it is and only refreshes the time. A
    presence message of the replica's own site is ignored. *)
Theorem presence_joins_once (own : string) (now1 now2 : Z) (peers : Peers)
    (peerId session1 session2 : string) :
  peerId ≠ own →
  peerId ∉ map fst peers →
  let first := presenceReceived own now1 true peers peerId session1 in
  let second := presenceReceived own now2 true (fst first) peerId session2 in
  first = (peers ++ [(peerId, mkPeer peerId session1 now1)],
           [PeerJoin peerId]) ∧
  second = (peers ++ [(peerId, mkPeer peerId session1 now2)], []) ∧
  getPeerCount (fst second) = S (getPeerCount peers) ∧
  presenceReceived own now1 true peers own session1 = (peers, []).
Proof.
  intros Hown Hnew first second.
  assert (first = (peers ++ [(peerId, mkPeer peerId session1 now1)],
                   [PeerJoin peerId])) as H1.
  { subst first. unfold presenceReceived. rewrite decide_True by done.
    destruct (hasPeer peerId peers) eqn:E; [|done].
    by apply hasPeer_true in E. }
  assert (second = (peers ++ [(peerId, mkPeer peerId session1 now2)], []))
    as H2.
  { subst second. rewrite H1. simpl. unfold presenceReceived.
    rewrite decide_True by done.
    destruct (hasPeer peerId _) eqn:E; simpl.
    - by rewrite touchPeer_snoc.
    - exfalso. apply not_true_iff_false in E. apply E, hasPeer_true.
      rewrite map_app. apply elem_of_app. right. by left. }
  split; [exact H1|]. split; [exact H2|]. split.
  - rewrite H2. unfold getPeerCount. simpl. rewrite length_app. simpl. lia.
  - unfold presenceReceived. by rewrite decide_False by (by intros H; apply H).
Qed.

Lemma presence_joins_once_witness :
  "b" ≠ "a" ∧ ("b" ∉ map fst ([] : Peers)) ∧
  presenceReceived "a" 5 true [] "b" "S1"
    = ([] ++ [("b", mkPeer "b" "S1" 5)], [PeerJoin "b"]).
Proof.
  assert ("b" ≠ "a") as H1 by done.
  assert ("b" ∉ map fst ([] : Peers)) as H2 by apply not_elem_of_nil.
  split; [exact H1|]. split; [exact H2|].
  exact (proj1 (presence_joins_once "a" 5 9 [] "b" "S1" "S2" H1 H2)).
Defined.

(** X26. [checkStalePeers] drops exactly the peers not seen for more than
    15 seconds, in map order, with one leave report each: a peer is
    listed afterwards exactly when it was listed and its last presence is
    at most 15000 ms old; the reports name the dropped peers; and a second
    check at the same time drops nothing more. *)
Theorem checkStalePeers_drops_stale (now : Z) (peers : Peers)
    (entry : string * Peer) :
  let kept := fst (checkStalePeers now true peers) in
  let events := snd (checkStalePeers now true peers) in
  (entry ∈ kept ↔ entry ∈ peers ∧ now - peer_lastSeen (snd entry) ≤ 15000) ∧
  (PeerLeave (fst entry) ∈ events ↔
   ∃ peer, (fst entry, peer) ∈ peers ∧ 15000 < now - peer_lastSeen peer) ∧
  (length events + getPeerCount kept = getPeerCount peers)%nat ∧
  checkStalePeers now true kept = (kept, []) ∧
  snd (checkStalePeers now false peers) = [].
Proof.
  intros kept events. subst kept events. unfold checkStalePeers. simpl.
  split; [|split; [|split; [|split; [|done]]]].
  - rewrite list_elem_of_In, filter_In, <- list_elem_of_In.
    unfold stale. destruct (Z.ltb_spec 15000 (now - peer_lastSeen (snd entry)));
      simpl; split; intros [? ?]; split; try done; lia.
  - rewrite list_elem_of_fmap. split.
    + intros (e & He & Hin). apply list_elem_of_In, filter_In in Hin as [Hin Hs].
      injection He as He. exists (snd e). split.
      * rewrite He. apply list_elem_of_In. by destruct e.
      * unfold stale in Hs. lia.
    + intros (peer & Hin & Hs). exists (fst entry, peer). split; [done|].
      apply list_elem_of_In, filter_In. split; [by apply list_elem_of_In|].
      unfold stale. simpl. lia.
  - unfold getPeerCount. rewrite length_map.
    rewrite <- (List.filter_length (stale now) peers). done.
  - rewrite filter_idem, filter_filter_negb. done.
Qed.
